(** * image_processing.transform: the derivative pipeline of [Transform]

    A shallow embedding of [src/image_processing/transform.py].  The pipeline
    only sequences calls to external collaborators (the format converter, the
    JP2 validator, libxmp, the file system), so the embedding is a state and
    exception monad over an explicit file system, and every collaborator is an
    oracle of an environment record [Env]. *)

From Stdlib Require Import Ascii String List.
From stdpp Require Import gmap strings list fin_maps.

Open Scope string_scope.
Open Scope list_scope.

(** ** Data *)

(** File contents are bytes. *)
Abbreviation bytes := (list Byte.byte).

(** A path is a folder and the name of a file in it.  Two paths are the
    same file exactly when they are the same pair: this is the file system of
    a caller who names every folder one way and uses plain file names (no
    separator, not [.] or [..]), without links.  [plain_paths] below says so
    where a statement depends on it. *)
Definition path : Type := string * string.

(** [os.path.join(folder, name)], as the file it names. *)
Definition os_path_join (folder name : string) : path := (folder, name).

Definition starts_with_slash (s : string) : bool :=
  match s with
  | String a _ => Ascii.eqb a "/"%char
  | EmptyString => false
  end.

Fixpoint ends_with_slash (s : string) : bool :=
  match s with
  | EmptyString => false
  | String a EmptyString => Ascii.eqb a "/"%char
  | String _ rest => ends_with_slash rest
  end.

(** The text of a path, as [str.format] prints the string that
    [os.path.join] returns: an absolute name replaces the folder, and a
    separator is put in only when the folder is not empty and does not end
    with one. *)
Definition path_str (p : path) : string :=
  if starts_with_slash p.2 then p.2
  else if bool_decide (p.1 = "") || ends_with_slash p.1 then p.1 +:+ p.2
  else p.1 +:+ "/" +:+ p.2.

Fixpoint has_slash (s : string) : bool :=
  match s with
  | EmptyString => false
  | String a rest => Ascii.eqb a "/"%char || has_slash rest
  end.

(** A plain file name. *)
Definition plain_name (n : string) : bool :=
  negb (has_slash n) && negb (bool_decide (n = ""))
  && negb (bool_decide (n = ".")) && negb (bool_decide (n = "..")).

Fixpoint split_slash (s cur : string) : list string :=
  match s with
  | EmptyString => [cur]
  | String a rest =>
      if Ascii.eqb a "/"%char then cur :: split_slash rest ""
      else split_slash rest (cur +:+ String a EmptyString)
  end.

(** A folder named one way: an absolute path whose components are plain. *)
Definition canonical_folder (d : string) : bool :=
  match split_slash d "" with
  | "" :: c :: cs => forallb plain_name (c :: cs)
  | _ => false
  end.

(** The file system: a directory maps the names of its files to their bytes. *)
Abbreviation FS := (gmap string (gmap string bytes)).

Definition read (f : FS) (p : path) : option bytes :=
  f !! p.1 ≫= λ m, m !! p.2.

Definition write (f : FS) (p : path) (c : bytes) : option FS :=
  match f !! p.1 with
  | Some m => Some (<[p.1 := <[p.2 := c]> m]> f)
  | None => None
  end.

(** [exceptions.py], and the built-in exceptions the calls of the module can
    raise. *)
Inductive exn : Type :=
  | ImageProcessingError
  | ImageMagickError
  | KakaduError
  | ValidationError
  | IOError
  | ShutilError
  | FileExistsError
  | XMPError
  | AttributeError.

#[global] Instance exn_eq_dec : EqDecision exn.
Proof. solve_decision. Defined.

(** Open resources: a libxmp file handle or an [io.open] file object. *)
Inductive Handle : Type :=
  | HXmp (p : path)
  | HFile (p : path).

#[global] Instance Handle_eq_dec : EqDecision Handle.
Proof. solve_decision. Defined.

(** The calls the pipeline makes, in the order it makes them. *)
Inductive Event : Type :=
  | EMkdtemp (d : string)
  | ERmtree (d : string)
  | ECopy (src dst : path)
  | EConvertToTiff (src dst : path) (options : list string)
  | EConvertToJpg (src dst : path)
  | EConvertToJpeg2000 (src dst : path) (lossless : bool)
  | EConvertTiffColourProfile (src dst : path) (icc : string)
  | EConvertColourToJpeg2000 (src dst : path) (lossless : bool)
  | ERepageImage (src dst : path)
  | EValidateJp2 (p : path)
  | EExtractXmp (image xmp : path).

#[global] Instance Event_eq_dec : EqDecision Event.
Proof. solve_decision. Defined.

Record State : Type := mkState {
  fs : FS;
  handles : list Handle;
  trace : list Event;
  log : list string
}.

Definition set_fs (f : FS) (s : State) : State :=
  mkState f (handles s) (trace s) (log s).
Definition set_handles (h : list Handle) (s : State) : State :=
  mkState (fs s) h (trace s) (log s).
Definition emit (e : Event) (s : State) : State :=
  mkState (fs s) (handles s) (trace s ++ [e]) (log s).

(** ** The collaborators

    [format_converter], [validation], [libxmp], [tempfile] and [uuid] are not
    part of the module; the pipeline sees of them only success or failure and
    the bytes of the file they produce. *)
Record Env : Type := mkEnv {
  (** [tempfile.gettempdir()] and the random names [mkdtemp] tries in turn *)
  tmpdir : string;
  tmp_names : list string;
  (** [str(uuid4())] *)
  uuid4 : string;
  (** the converters, as functions of the bytes of their source file *)
  to_tiff : list string → bytes → exn + bytes;
  to_jpg : bytes → exn + bytes;
  to_jpeg2000 : bool → bytes → exn + bytes;
  tiff_colour_profile : string → bytes → exn + bytes;
  colour_to_jpeg2000 : bool → bytes → exn + bytes;
  repage : bytes → exn + bytes;
  (** what a converter or validator raises when it cannot read its source or
      write its destination *)
  tool_io_error : exn;
  (** whether a JPEG2000 file is structurally valid *)
  jp2_valid : bytes → bool;
  (** libxmp: whether the container can be opened, the XMP packet of an image
      ([None]: the image carries none) and its serialization *)
  xmp_can_open : bytes → bool;
  xmp_packet : bytes → exn + option bytes;
  xmp_serialize : bytes → exn + bytes;
  (** a fault while writing [data] to a file: [Some k] when only the first
      [k] bytes reach the file before the write raises *)
  write_fault : path → bytes → option nat;
  (** files [shutil.rmtree] cannot delete *)
  undeletable : path → bool;
  (** what [validation] could tell of an image: the digest of its decoded
      pixels, whether it embeds an ICC profile, its colour mode.  No call of
      [Transform] consults any of these. *)
  pixel_checksum : bytes → bytes;
  has_icc_profile : bytes → bool;
  is_greyscale : bytes → bool;
  is_bilevel : bytes → bool
}.

(** ** The monad: state, and exceptions that keep the state *)

Definition M (A : Type) : Type := State → (exn + A) * State.

Definition ret {A} (x : A) : M A := λ s, (inr x, s).
Definition raise {A} (e : exn) : M A := λ s, (inl e, s).
Definition bind {A B} (m : M A) (k : A → M B) : M B :=
  λ s, match m s with
       | (inr x, s') => k x s'
       | (inl e, s') => (inl e, s')
       end.

Notation "x <- m ; k" := (bind m (λ x, k))
  (at level 20, m at level 100, k at level 200, only parsing).
Notation "m ;; k" := (bind m (λ _, k))
  (at level 100, k at level 200, right associativity, only parsing).

(** [try: body finally: fin].  The [finally] block always runs; when it
    raises, its exception replaces the outcome of the body. *)
Definition try_finally {A} (body : M A) (fin : M unit) : M A :=
  λ s, let '(r, s1) := body s in
       match fin s1 with
       | (inr _, s2) => (r, s2)
       | (inl e, s2) => (inl e, s2)
       end.

Definition modify (f : State → State) : M unit := λ s, (inr tt, f s).

(** [self.log.debug(msg)] *)
Definition log_debug (msg : string) : M unit :=
  modify (λ s, mkState (fs s) (handles s) (trace s) (log s ++ [msg])).

(** ** The calls of the standard library *)

(** [tempfile.mkdtemp(prefix=...)]: the first candidate name that is not yet a
    directory is created; [FileExistsError] when every candidate is taken. *)
Fixpoint mkdtemp_name (dir prefix : string) (names : list string) (f : FS)
    : option string :=
  match names with
  | [] => None
  | n :: rest =>
      let d := dir +:+ "/" +:+ prefix +:+ n in
      match f !! d with
      | None => Some d
      | Some _ => mkdtemp_name dir prefix rest f
      end
  end.

Definition mkdtemp (env : Env) (prefix : string) : M string :=
  λ s, match mkdtemp_name (tmpdir env) prefix (tmp_names env) (fs s) with
       | Some d => (inr d, emit (EMkdtemp d) (set_fs (<[d := ∅]> (fs s)) s))
       | None => (inl FileExistsError, s)
       end.

(** What [shutil.rmtree] leaves behind in directory [d]. *)
Definition leftover (env : Env) (d : string) (m : gmap string bytes)
    : gmap string bytes :=
  filter (λ kv, undeletable env (d, kv.1) = true) m.

(** [shutil.rmtree(d, ignore_errors)]: every file that can be deleted is
    deleted, and the directory goes when it is empty.  A removal error is
    raised only without [ignore_errors]. *)
Definition rmtree (env : Env) (d : string) (ignore_errors : bool) : M unit :=
  λ s, let s1 := emit (ERmtree d) s in
       let failed := if ignore_errors then inr tt else inl IOError in
       match fs s !! d with
       | None => (failed, s1)
       | Some m =>
           if decide (leftover env d m = ∅)
           then (inr tt, set_fs (delete d (fs s)) s1)
           else (failed, set_fs (<[d := leftover env d m]> (fs s)) s1)
       end.

(** [shutil.copy(src, dst)] *)
Definition shutil_copy (src dst : path) : M unit :=
  λ s, let s1 := emit (ECopy src dst) s in
       match read (fs s) src with
       | None => (inl IOError, s1)
       | Some c =>
           if decide (src = dst) then (inl ShutilError, s1)
           else match write (fs s) dst c with
                | Some f => (inr tt, set_fs f s1)
                | None => (inl IOError, s1)
                end
       end.

(** ** [format_converter] and [validation] *)

(** A converter reads [src], and on success writes the converted bytes to
    [dst]; it changes no other file. *)
Definition run_tool (env : Env) (ev : Event) (f : bytes → exn + bytes)
    (src dst : path) : M unit :=
  λ s, let s1 := emit ev s in
       match read (fs s) src with
       | None => (inl (tool_io_error env), s1)
       | Some c =>
           match f c with
           | inl e => (inl e, s1)
           | inr c' =>
               match write (fs s) dst c' with
               | Some f' => (inr tt, set_fs f' s1)
               | None => (inl (tool_io_error env), s1)
               end
           end
       end.

Definition convert_to_tiff env (src dst : path) (options : list string) :=
  run_tool env (EConvertToTiff src dst options) (to_tiff env options) src dst.
Definition convert_to_jpg env (src dst : path) :=
  run_tool env (EConvertToJpg src dst) (to_jpg env) src dst.
Definition convert_to_jpeg2000 env (src dst : path) (lossless : bool) :=
  run_tool env (EConvertToJpeg2000 src dst lossless)
    (to_jpeg2000 env lossless) src dst.
Definition convert_tiff_colour_profile env (src dst : path) (icc : string) :=
  run_tool env (EConvertTiffColourProfile src dst icc)
    (tiff_colour_profile env icc) src dst.
Definition convert_colour_to_jpeg2000 env (src dst : path) (lossless : bool) :=
  run_tool env (EConvertColourToJpeg2000 src dst lossless)
    (colour_to_jpeg2000 env lossless) src dst.
Definition repage_image env (src dst : path) :=
  run_tool env (ERepageImage src dst) (repage env) src dst.

(** Modelled from the spec: [validation.validate_jp2], which is not part of
    this module.  It reads the file and raises [ValidationError] when its
    codestream is not structurally valid; it writes nothing. *)
Definition validate_jp2 (env : Env) (p : path) : M unit :=
  λ s, let s1 := emit (EValidateJp2 p) s in
       match read (fs s) p with
       | None => (inl (tool_io_error env), s1)
       | Some c =>
           if jp2_valid env c then (inr tt, s1) else (inl ValidationError, s1)
       end.

(** ** [libxmp] and [io] *)

Fixpoint release (h : Handle) (l : list Handle) : list Handle :=
  match l with
  | [] => []
  | h' :: l' => if decide (h = h') then l' else h' :: release h l'
  end.

Arguments release : simpl never.

Definition close_handle (h : Handle) : M unit :=
  modify (λ s, set_handles (release h (handles s)) s).

(** [libxmp.XMPFiles(file_path=p)] opens the image and holds its bytes. *)
Definition XMPFiles (env : Env) (p : path) : M bytes :=
  λ s, match read (fs s) p with
       | None => (inl IOError, s)
       | Some c =>
           if xmp_can_open env c
           then (inr c, set_handles (HXmp p :: handles s) s)
           else (inl XMPError, s)
       end.

(** [image_xmp_file.get_xmp()]: the packet, or [None]. *)
Definition get_xmp (env : Env) (image : bytes) : M (option bytes) :=
  λ s, (xmp_packet env image, s).

(** [xmp.serialize_to_unicode()]; on [None] the attribute lookup raises. *)
Definition serialize_to_unicode (env : Env) (xmp : option bytes) : M bytes :=
  match xmp with
  | None => raise AttributeError
  | Some packet => λ s, (xmp_serialize env packet, s)
  end.

(** [io.open(p, 'a')]: the file is created empty when it does not exist and
    is left as it is when it does. *)
Definition io_open_append (p : path) : M unit :=
  λ s, match fs s !! p.1 with
       | None => (inl IOError, s)
       | Some m =>
           let m' := match m !! p.2 with
                     | Some _ => m
                     | None => <[p.2 := []]> m
                     end in
           (inr tt, set_handles (HFile p :: handles s)
                      (set_fs (<[p.1 := m']> (fs s)) s))
       end.

(** [f.write(data)] on a file opened for appending. *)
Definition file_write (env : Env) (p : path) (data : bytes) : M unit :=
  λ s, match read (fs s) p with
       | None => (inl IOError, s)
       | Some old =>
           let put d := match write (fs s) p (old ++ d) with
                        | Some f => set_fs f s
                        | None => s
                        end in
           match write_fault env p data with
           | None => (inr tt, put data)
           | Some k => (inl IOError, put (take k data))
           end
       end.

(** [with io.open(p, 'a') as f: body] *)
Definition with_open_append {A} (p : path) (body : M A) : M A :=
  io_open_append p ;; try_finally body (close_handle (HFile p)).

(** ** [Transform] *)

Definition DEFAULT_TIFF_FILENAME := "full.tiff".
Definition DEFAULT_XMP_FILENAME := "xmp.xml".
Definition DEFAULT_JPG_FILENAME := "full.jpg".
Definition DEFAULT_LOSSLESS_JP2_FILENAME := "full_lossless.jp2".
Definition DEFAULT_LOSSY_JP2_FILENAME := "full_lossy.jp2".
Definition DEFAULT_ICC_PROFILE := "/opt/kakadu/sRGB_v4_ICC_preference.icc".

Record Transform : Type := mkTransform {
  tiff_filename : string;
  xmp_filename : string;
  jpg_filename : string;
  lossless_jp2_filename : string;
  lossy_jp2_filename : string;
  icc_profile : string
}.

(** [Transform(kakadu_base_path)] with every keyword left at its default. *)
Definition default_transform : Transform :=
  mkTransform DEFAULT_TIFF_FILENAME DEFAULT_XMP_FILENAME DEFAULT_JPG_FILENAME
    DEFAULT_LOSSLESS_JP2_FILENAME DEFAULT_LOSSY_JP2_FILENAME
    DEFAULT_ICC_PROFILE.

Definition extract_xmp (env : Env) (self : Transform)
    (image_file xmp_file_path : path) : M unit :=
  modify (emit (EExtractXmp image_file xmp_file_path)) ;;
  image <- XMPFiles env image_file ;
  try_finally
    (xmp <- get_xmp env image ;
     with_open_append xmp_file_path
       (data <- serialize_to_unicode env xmp ;
        file_write env xmp_file_path data) ;;
     log_debug ("XMP file " +:+ path_str xmp_file_path +:+ " generated"))
    (close_handle (HXmp image_file)).

Definition generate_jp2_derivatives_from_tiff (env : Env) (self : Transform)
    (scratch_tiff_file : path) (output_folder : string) : M (list path) :=
  let lossless_filepath :=
    os_path_join output_folder (lossless_jp2_filename self) in
  convert_to_jpeg2000 env scratch_tiff_file lossless_filepath true ;;
  validate_jp2 env lossless_filepath ;;
  log_debug ("Lossless jp2 file " +:+ path_str lossless_filepath
             +:+ " generated") ;;
  let lossy_filepath := os_path_join output_folder (lossy_jp2_filename self) in
  convert_tiff_colour_profile env scratch_tiff_file scratch_tiff_file
    (icc_profile self) ;;
  convert_colour_to_jpeg2000 env scratch_tiff_file lossy_filepath false ;;
  validate_jp2 env lossy_filepath ;;
  log_debug ("Lossy jp2 file " +:+ path_str lossy_filepath +:+ " generated") ;;
  ret [lossless_filepath; lossy_filepath].

(** The [finally] block of both entry points. *)
Definition cleanup (env : Env) (scratch_output_folder : string) : M unit :=
  if decide (scratch_output_folder = "") then ret tt
  else rmtree env scratch_output_folder true.

(** The [try] block of [generate_derivatives_from_jpg]. *)
Definition jpg_body (env : Env) (self : Transform) (jpg_file : path)
    (output_folder : string) (strip_embedded_metadata save_xmp : bool)
    (scratch_output_folder : string) : M (list path) :=
  let jpeg_filepath := os_path_join output_folder (jpg_filename self) in
  shutil_copy jpg_file jpeg_filepath ;;
  let generated_files := [jpeg_filepath] in
  generated_files <-
    (if save_xmp then
       let xmp_file_path := os_path_join output_folder (xmp_filename self) in
       extract_xmp env self jpeg_filepath xmp_file_path ;;
       ret (generated_files ++ [xmp_file_path])
     else ret generated_files) ;
  let scratch_tiff_filepath :=
    os_path_join scratch_output_folder (uuid4 env +:+ ".tif") in
  let tif_conversion_options :=
    if strip_embedded_metadata then ["-strip"] else [] in
  convert_to_tiff env jpeg_filepath scratch_tiff_filepath
    tif_conversion_options ;;
  jp2_files <-
    generate_jp2_derivatives_from_tiff env self scratch_tiff_filepath
      output_folder ;
  ret (generated_files ++ jp2_files).

Definition generate_derivatives_from_jpg (env : Env) (self : Transform)
    (jpg_file : path) (output_folder : string)
    (strip_embedded_metadata save_xmp : bool) : M (list path) :=
  scratch_output_folder <- mkdtemp env "image_ingest_" ;
  try_finally
    (jpg_body env self jpg_file output_folder strip_embedded_metadata save_xmp
       scratch_output_folder)
    (cleanup env scratch_output_folder).

(** The [try] block of [generate_derivatives_from_tiff]. *)
Definition tiff_body (env : Env) (self : Transform) (tiff_file : path)
    (output_folder : string) (include_tiff save_xmp repage : bool)
    (scratch_output_folder : string) : M (list path) :=
  let jpeg_filepath := os_path_join output_folder (jpg_filename self) in
  convert_to_jpg env tiff_file jpeg_filepath ;;
  log_debug ("jpeg file " +:+ path_str jpeg_filepath +:+ " generated") ;;
  let generated_files := [jpeg_filepath] in
  generated_files <-
    (if save_xmp then
       let xmp_file_path := os_path_join output_folder (xmp_filename self) in
       extract_xmp env self tiff_file xmp_file_path ;;
       ret (generated_files ++ [xmp_file_path])
     else ret generated_files) ;
  generated_files <-
    (if include_tiff then
       let tiff_filepath := os_path_join output_folder (tiff_filename self) in
       shutil_copy tiff_file tiff_filepath ;;
       ret (generated_files ++ [tiff_filepath])
     else ret generated_files) ;
  let scratch_tiff_filepath :=
    os_path_join scratch_output_folder (uuid4 env +:+ ".tiff") in
  shutil_copy tiff_file scratch_tiff_filepath ;;
  (if repage then
     repage_image env scratch_tiff_filepath scratch_tiff_filepath
   else ret tt) ;;
  jp2_files <-
    generate_jp2_derivatives_from_tiff env self scratch_tiff_filepath
      output_folder ;
  ret (generated_files ++ jp2_files).

Definition generate_derivatives_from_tiff (env : Env) (self : Transform)
    (tiff_file : path) (output_folder : string)
    (include_tiff save_xmp repage : bool) : M (list path) :=
  scratch_output_folder <- mkdtemp env "image_ingest_" ;
  try_finally
    (tiff_body env self tiff_file output_folder include_tiff save_xmp repage
       scratch_output_folder)
    (cleanup env scratch_output_folder).

(** ** Concrete worlds, for the examples

    A toy image format: a container tag, a colon, the pixels. *)

Definition b (s : string) : bytes := list_byte_of_string s.

Fixpoint pixels (c : bytes) : bytes :=
  match c with
  | [] => []
  | x :: rest => if Byte.eqb x Byte.x3a then rest else pixels rest
  end.

Definition world (jp2 : bytes → exn + bytes) (valid : bytes → bool)
    (packet : bytes → exn + option bytes) (undel : path → bool) : Env := {|
  tmpdir := "/tmp";
  tmp_names := ["a1b2c3"; "d4e5f6"];
  uuid4 := "0f8fad5b";
  to_tiff := λ _ c, inr (b "TIFF:" ++ pixels c);
  to_jpg := λ c, inr (b "JPG:" ++ pixels c);
  to_jpeg2000 := λ _, jp2;
  tiff_colour_profile := λ _ c, inr (c ++ b "+sRGB");
  colour_to_jpeg2000 := λ _ c, inr (b "JP2:" ++ pixels c ++ b "~");
  repage := λ c, inr c;
  tool_io_error := ImageProcessingError;
  jp2_valid := valid;
  xmp_can_open := λ _, true;
  xmp_packet := packet;
  xmp_serialize := λ x, inr x;
  write_fault := λ _ _, None;
  undeletable := undel;
  pixel_checksum := pixels;
  has_icc_profile := λ _, false;
  is_greyscale := λ _, false;
  is_bilevel := λ _, false
|}.

(** Every tool works and the lossless conversion keeps the pixels. *)
Definition env0 : Env :=
  world (λ c, inr (b "JP2:" ++ pixels c)) (λ _, true)
    (λ _, inr (Some (b "<x:xmpmeta/>"))) (λ _, false).

(** The lossless conversion silently alters the pixels. *)
Definition env_altered : Env :=
  world (λ c, inr (b "JP2:" ++ b "other-pixels")) (λ _, true)
    (λ _, inr (Some (b "<x:xmpmeta/>"))) (λ _, false).

(** The lossless conversion writes a codestream that does not validate. *)
Definition env_invalid : Env :=
  world (λ c, inr (b "JP2:" ++ pixels c)) (λ _, false)
    (λ _, inr (Some (b "<x:xmpmeta/>"))) (λ _, false).

(** libxmp cannot read the packet of the image. *)
Definition env_no_xmp : Env :=
  world (λ c, inr (b "JP2:" ++ pixels c)) (λ _, true)
    (λ _, inl XMPError) (λ _, false).

(** No file of the scratch folder can be deleted. *)
Definition env_stuck : Env :=
  world (λ c, inr (b "JP2:" ++ pixels c)) (λ _, true)
    (λ _, inr (Some (b "<x:xmpmeta/>"))) (λ _, true).

Definition state0 (f : FS) : State := mkState f [] [] [].

Definition master_jpg : path := ("in", "master.jpg").
Definition master_tif : path := ("in", "master.tif").

Definition fs0 : FS :=
  {[ "in" := {[ "master.jpg" := b "JPG:pixels";
                "master.tif" := b "TIFF:pixels" ]};
     "out" := ∅ ]}.

(** The output folder already holds a sidecar. *)
Definition fs_sidecar : FS :=
  {[ "in" := {[ "master.jpg" := b "JPG:pixels";
                "master.tif" := b "TIFF:pixels" ]};
     "out" := {[ "xmp.xml" := b "<old/>" ]} ]}.

(** * Frames, traces and outcomes: the vocabulary of the statements *)

(** ** Frames and traces

    [fs_step W f f']: from [f] to [f'] no directory appeared or went, no file
    went, and only files in [W] changed. *)
Record fs_step (W : path → Prop) (f f' : FS) : Prop := {
  fs_dirs : ∀ d, is_Some (f' !! d) ↔ is_Some (f !! d);
  fs_frame : ∀ p, ¬ W p → read f' p = read f p;
  fs_keeps : ∀ p, is_Some (read f p) → is_Some (read f' p)
}.

(** [step W tr s s']: moreover the calls [tr] were made and every handle that
    was opened has been closed. *)
Record step (W : path → Prop) (tr : list Event) (s s' : State) : Prop := {
  step_fs : fs_step W (fs s) (fs s');
  step_handles : handles s' = handles s;
  step_trace : trace s' = trace s ++ tr
}.

(** [traced W L m]: [m] makes the calls [L] in this order and stops at the
    first that raises; it is framed by [W]. *)
Definition traced {A} (W : path → Prop) (L : list Event) (m : M A) : Prop :=
  ∀ s r s', m s = (r, s') →
    ∃ tr, tr `prefix_of` L ∧ step W tr s s' ∧ (∀ x, r = inr x → tr = L).

(** The scratch TIFF of a run: [os.path.join(d, str(uuid4()) + ext)]. *)
Definition scratch_tiff (env : Env) (d ext : string) : path :=
  os_path_join d (uuid4 env +:+ ext).

(** The five derivative paths of an output folder. *)
Definition derivative_paths (self : Transform) (out : string) : list path :=
  [ os_path_join out (jpg_filename self);
    os_path_join out (xmp_filename self);
    os_path_join out (tiff_filename self);
    os_path_join out (lossless_jp2_filename self);
    os_path_join out (lossy_jp2_filename self) ].

(** What a run may write: its scratch TIFF and the derivatives. *)
Definition written (self : Transform) (out : string) (scratch : path)
    (p : path) : Prop :=
  p = scratch ∨ p ∈ derivative_paths self out.

(** The calls of [generate_jp2_derivatives_from_tiff], when none raises. *)
Definition jp2_calls (self : Transform) (scratch : path) (out : string)
    : list Event :=
  let lossless := os_path_join out (lossless_jp2_filename self) in
  let lossy := os_path_join out (lossy_jp2_filename self) in
  [ EConvertToJpeg2000 scratch lossless true;
    EValidateJp2 lossless;
    EConvertTiffColourProfile scratch scratch (icc_profile self);
    EConvertColourToJpeg2000 scratch lossy false;
    EValidateJp2 lossy ].

(** The calls of the [try] block of [generate_derivatives_from_jpg], when
    none raises. *)
Definition jpg_calls (env : Env) (self : Transform) (jpg_file : path)
    (out : string) (strip save_xmp : bool) (d : string) : list Event :=
  let jpeg := os_path_join out (jpg_filename self) in
  [ECopy jpg_file jpeg]
  ++ (if save_xmp
      then [EExtractXmp jpeg (os_path_join out (xmp_filename self))] else [])
  ++ [EConvertToTiff jpeg (scratch_tiff env d ".tif")
        (if strip then ["-strip"] else [])]
  ++ jp2_calls self (scratch_tiff env d ".tif") out.

(** The calls of the [try] block of [generate_derivatives_from_tiff], when
    none raises. *)
Definition tiff_calls (env : Env) (self : Transform) (tiff_file : path)
    (out : string) (include_tiff save_xmp repage : bool) (d : string)
    : list Event :=
  let scratch := scratch_tiff env d ".tiff" in
  [EConvertToJpg tiff_file (os_path_join out (jpg_filename self))]
  ++ (if save_xmp
      then [EExtractXmp tiff_file (os_path_join out (xmp_filename self))]
      else [])
  ++ (if include_tiff
      then [ECopy tiff_file (os_path_join out (tiff_filename self))] else [])
  ++ [ECopy tiff_file scratch]
  ++ (if repage then [ERepageImage scratch scratch] else [])
  ++ jp2_calls self scratch out.

(** What [generate_jp2_derivatives_from_tiff] may write. *)
Definition jp2_written (self : Transform) (out : string) (scratch : path)
    (p : path) : Prop :=
  p = scratch ∨ p = os_path_join out (lossless_jp2_filename self)
  ∨ p = os_path_join out (lossy_jp2_filename self).

(** The file system after [shutil.rmtree(d, ignore_errors=True)]. *)
Definition rmtree_fs (env : Env) (d : string) (f : FS) : FS :=
  match f !! d with
  | None => f
  | Some m =>
      if decide (leftover env d m = ∅) then delete d f
      else <[d := leftover env d m]> f
  end.

(** The shape shared by the two entry points: make the scratch folder, run
    the [try] block, clean up whatever the block did. *)
Definition with_scratch {A} (env : Env) (body : string → M A) : M A :=
  scratch_output_folder <- mkdtemp env "image_ingest_" ;
  try_finally (body scratch_output_folder) (cleanup env scratch_output_folder).

(** [os.listdir(d)] *)
Definition listdir (f : FS) (d : string) : gset string :=
  dom (default ∅ (f !! d)).

(** The outcome of [generate_jp2_derivatives_from_tiff] on a scratch TIFF
    with bytes [c], as a function of the converters and of the structural
    validity of the two JP2 files. *)
Definition jp2_outcome (env : Env) (self : Transform) (out : string)
    (c : bytes) : exn + list path :=
  match to_jpeg2000 env true c with
  | inl e => inl e
  | inr j1 =>
      if jp2_valid env j1 then
        match tiff_colour_profile env (icc_profile self) c with
        | inl e => inl e
        | inr c2 =>
            match colour_to_jpeg2000 env false c2 with
            | inl e => inl e
            | inr j2 =>
                if jp2_valid env j2
                then inr [os_path_join out (lossless_jp2_filename self);
                          os_path_join out (lossy_jp2_filename self)]
                else inl ValidationError
            end
        end
      else inl ValidationError
  end.

(** How many of the five calls are made before the run ends. *)
Definition jp2_progress (env : Env) (self : Transform) (c : bytes) : nat :=
  match to_jpeg2000 env true c with
  | inl _ => 1
  | inr j1 =>
      if jp2_valid env j1 then
        match tiff_colour_profile env (icc_profile self) c with
        | inl _ => 3
        | inr c2 =>
            match colour_to_jpeg2000 env false c2 with
            | inl _ => 4
            | inr _ => 5
            end
        end
      else 2
  end.

(** What a run of an entry point leaves of its scratch workspace. *)
Definition scratch_released {A} (env : Env) (body : string → M A)
    (run : M A) (s : State) : Prop :=
  match mkdtemp env "image_ingest_" s with
  | (inl e, _) => run s = (inl e, s)
  | (inr d, s0) =>
      (* the folder is new and is the run's own *)
      fs s !! d = None ∧
      (* the outcome of the [try] block is the outcome of the run *)
      (run s).1 = (body d s0).1 ∧
      (* removal is the last call of the run *)
      trace (run s).2 = trace (body d s0).2 ++ [ERmtree d] ∧
      (* the folder is gone, but for the files that cannot be deleted *)
      (∃ m, fs (body d s0).2 !! d = Some m ∧
            fs (run s).2 !! d =
              if decide (leftover env d m = ∅) then None
              else Some (leftover env d m)) ∧
      ((∀ n, undeletable env (d, n) = false) → fs (run s).2 !! d = None) ∧
      (* and no other folder is touched by the removal *)
      ∀ d', d' ≠ d → fs (run s).2 !! d' = fs (body d s0).2 !! d'
  end.

(** The file a repage or a profile application overwrites. *)
Definition destructive_target (e : Event) : option path :=
  match e with
  | ERepageImage _ dst | EConvertTiffColourProfile _ dst _ => Some dst
  | _ => None
  end.

(** Every repage and profile application of the run overwrites a file of the
    scratch folder the run made, which is not the source; and a source that
    is not itself one of the derivative paths has its bytes after the run. *)
Definition source_untouched (self : Transform) (src : path) (out : string)
    (s s' : State) : Prop :=
  ∃ tr, trace s' = trace s ++ tr ∧
    (∀ e p, e ∈ tr → destructive_target e = Some p →
       p ≠ src ∧ fs s !! p.1 = None ∧ EMkdtemp p.1 ∈ tr) ∧
    (src ∉ derivative_paths self out → read (fs s') src = read (fs s) src).

(** The derivative names and the source name are plain, and the source
    folder and the output folder are each named one way. *)
Definition plain_paths (self : Transform) (src : path) (out : string) : Prop :=
  Forall (λ n, plain_name n = true)
    [jpg_filename self; xmp_filename self; tiff_filename self;
     lossless_jp2_filename self; lossy_jp2_filename self; src.2] ∧
  canonical_folder src.1 = true ∧ canonical_folder out = true.

(** A source TIFF that sits at the lossless path of the output folder. *)
Definition fs_alias : FS :=
  {[ "/out" := {[ "full_lossless.jp2" := b "TIFF:pixels" ]} ]}.

(** A source folder next to an empty output folder. *)
Definition fs_abs : FS :=
  {[ "/in" := {[ "master.tif" := b "TIFF:pixels" ]}; "/out" := ∅ ]}.

(** The scratch folder [mkdtemp] makes in the example worlds, and a scratch
    TIFF for the runs of [generate_jp2_derivatives_from_tiff] alone. *)
Definition tmp0 : string := "/tmp/image_ingest_a1b2c3".
Definition scratch0 : path := ("scratch", "x.tiff").

(** A scratch TIFF next to an empty output folder. *)
Definition fs_scratch : FS :=
  {[ "scratch" := {[ "x.tiff" := b "TIFF:pixels" ]}; "out" := ∅ ]}.

(** * Further vocabulary: whole runs *)

(** The calls of a whole run of an entry point whose [try] block makes the
    calls [L d] in the scratch folder [d]: none when no scratch folder could
    be made; otherwise making the folder, an initial part of [L d] (all of it
    when the run returns), and removing the folder. *)
Definition run_calls {A} (L : string → list Event) (s : State)
    (r : exn + A) (s' : State) : Prop :=
  (r = inl FileExistsError ∧ s' = s) ∨
  ∃ d tr,
    fs s !! d = None ∧
    trace s' = trace s ++ EMkdtemp d :: tr ++ [ERmtree d] ∧
    tr `prefix_of` L d ∧
    ∀ x, r = inr x → tr = L d.

(** The call an event of the [try] block records. *)
Definition perform (env : Env) (self : Transform) (e : Event) : M unit :=
  match e with
  | ECopy src dst => shutil_copy src dst
  | EConvertToTiff src dst options => convert_to_tiff env src dst options
  | EConvertToJpg src dst => convert_to_jpg env src dst
  | EConvertToJpeg2000 src dst lossless =>
      convert_to_jpeg2000 env src dst lossless
  | EConvertTiffColourProfile src dst icc =>
      convert_tiff_colour_profile env src dst icc
  | EConvertColourToJpeg2000 src dst lossless =>
      convert_colour_to_jpeg2000 env src dst lossless
  | ERepageImage src dst => repage_image env src dst
  | EValidateJp2 p => validate_jp2 env p
  | EExtractXmp image xmp => extract_xmp env self image xmp
  | EMkdtemp _ | ERmtree _ => ret tt
  end.

(** Making the calls of a list one after the other: each call is made in the
    state the calls before it left, and the first call that raises ends the
    list with its exception. *)
Fixpoint perform_all (env : Env) (self : Transform) (L : list Event)
    : M unit :=
  match L with
  | [] => ret tt
  | e :: rest => perform env self e ;; perform_all env self rest
  end.

(** Two states that agree on all but the debug log. *)
Definition agree (s1 s2 : State) : Prop :=
  fs s1 = fs s2 ∧ handles s1 = handles s2 ∧ trace s1 = trace s2.

(** [m] does not depend on the debug log. *)
Definition respects {A} (m : M A) : Prop :=
  ∀ s1 s2, agree s1 s2 →
    (m s1).1 = (m s2).1 ∧ agree (m s1).2 (m s2).2.

(** [m] raises what [m'] raises, returns when [m'] returns, and leaves the
    state [m'] leaves, but for the debug log. *)
Definition follows {A} (m : M A) (m' : M unit) : Prop :=
  ∀ s1 s2, agree s1 s2 →
    agree (m s1).2 (m' s2).2 ∧ ∀ e, (m s1).1 = inl e ↔ (m' s2).1 = inl e.

(** A whole run of an entry point whose [try] block makes the calls [L d] in
    the scratch folder [d]: it raises when no scratch folder can be made;
    otherwise it makes the calls of [L d] one after the other up to the first
    that raises, raises what that call raised (and returns when none did),
    and then removes the scratch folder. *)
Definition run_performs {A} (env : Env) (self : Transform)
    (L : string → list Event) (run : M A) (s : State) : Prop :=
  match mkdtemp env "image_ingest_" s with
  | (inl e, _) => run s = (inl e, s)
  | (inr d, s0) =>
      let made := perform_all env self (L d) s0 in
      (∀ e, (run s).1 = inl e ↔ made.1 = inl e) ∧
      trace (run s).2 = trace made.2 ++ [ERmtree d] ∧
      fs (run s).2 = rmtree_fs env d (fs made.2) ∧
      handles (run s).2 = handles made.2
  end.

(** The paths a successful run of [generate_derivatives_from_jpg] returns. *)
Definition jpg_files (self : Transform) (out : string) (save_xmp : bool)
    : list path :=
  [os_path_join out (jpg_filename self)]
  ++ (if save_xmp then [os_path_join out (xmp_filename self)] else [])
  ++ [os_path_join out (lossless_jp2_filename self);
      os_path_join out (lossy_jp2_filename self)].

(** The paths a successful run of [generate_derivatives_from_tiff] returns. *)
Definition tiff_files (self : Transform) (out : string)
    (include_tiff save_xmp : bool) : list path :=
  [os_path_join out (jpg_filename self)]
  ++ (if save_xmp then [os_path_join out (xmp_filename self)] else [])
  ++ (if include_tiff then [os_path_join out (tiff_filename self)] else [])
  ++ [os_path_join out (lossless_jp2_filename self);
      os_path_join out (lossy_jp2_filename self)].

(** [grows f f']: every file and folder of [f] is still in [f']. *)
Abbreviation grows := (fs_step (λ _, True)).

(** libxmp cannot deliver the packet of an image: the file is missing, its
    container cannot be opened, or [get_xmp] raises. *)
Definition xmp_unreadable (env : Env) (image : option bytes) : Prop :=
  match image with
  | None => True
  | Some c => xmp_can_open env c = false ∨ ∃ e, xmp_packet env c = inl e
  end.

(** What [shutil.copy] raises as first call of the JPEG entry point. *)
Definition copy_error (f : FS) (src dst : path) : exn :=
  match read f src with
  | None => IOError
  | Some _ => if decide (src = dst) then ShutilError else IOError
  end.

(** libxmp finds no packet in the image. *)
Definition env_plain : Env :=
  world (λ c, inr (b "JP2:" ++ pixels c)) (λ _, true)
    (λ _, inr None) (λ _, false).

(** * Lemmas *)

(** ** Reasoning about the monad *)

Lemma bind_inr {A B} (m : M A) (k : A → M B) s x s1 :
  m s = (inr x, s1) → bind m k s = k x s1.
Proof. intros H. unfold bind. by rewrite H. Qed.

Lemma bind_inl {A B} (m : M A) (k : A → M B) s e s1 :
  m s = (inl e, s1) → bind m k s = (inl e, s1).
Proof. intros H. unfold bind. by rewrite H. Qed.

Lemma bind_inv {A B} (m : M A) (k : A → M B) s r s' :
  bind m k s = (r, s') →
  (∃ e, m s = (inl e, s') ∧ r = inl e) ∨
  (∃ x s1, m s = (inr x, s1) ∧ k x s1 = (r, s')).
Proof.
  unfold bind. destruct (m s) as [[e|x] s1]; intros H.
  - left. exists e. by inversion H.
  - right. by exists x, s1.
Qed.

(** ** The file system *)

Lemma read_write f p c f' : write f p c = Some f' → read f' p = Some c.
Proof.
  unfold write, read. destruct (f !! p.1) as [m|] eqn:E; [|done].
  intros [= <-]. rewrite lookup_insert_eq. simpl. by rewrite lookup_insert_eq.
Qed.

Lemma read_write_ne f p c f' q :
  write f p c = Some f' → q ≠ p → read f' q = read f q.
Proof.
  unfold write, read. destruct (f !! p.1) as [m|] eqn:E; [|done].
  intros [= <-] Hne. destruct (decide (p.1 = q.1)) as [Hd|Hd].
  - rewrite <- Hd, lookup_insert_eq, E. simpl.
    rewrite lookup_insert_ne; [done|].
    intros Hn. apply Hne. destruct p, q; simpl in *; congruence.
  - by rewrite lookup_insert_ne.
Qed.

Lemma write_dirs f p c f' d :
  write f p c = Some f' → is_Some (f' !! d) ↔ is_Some (f !! d).
Proof.
  unfold write. destruct (f !! p.1) as [m|] eqn:E; [|done].
  intros [= <-]. destruct (decide (p.1 = d)) as [<-|Hd].
  - rewrite lookup_insert_eq, E. split; eauto.
  - by rewrite lookup_insert_ne.
Qed.

Lemma write_is_Some f p c : is_Some (f !! p.1) → is_Some (write f p c).
Proof. intros [m Hm]. unfold write. rewrite Hm. eauto. Qed.

Lemma read_dir f p : is_Some (read f p) → is_Some (f !! p.1).
Proof.
  unfold read. destruct (f !! p.1); [eauto|]. simpl. by intros [? ?].
Qed.

Lemma fs_step_refl W f : fs_step W f f.
Proof. by split. Qed.

Lemma fs_step_trans W f f1 f2 :
  fs_step W f f1 → fs_step W f1 f2 → fs_step W f f2.
Proof.
  intros [D1 F1 K1] [D2 F2 K2]. split.
  - intros d. by rewrite D2.
  - intros p Hp. by rewrite F2, F1.
  - eauto.
Qed.

Lemma fs_step_weaken (W W' : path → Prop) f f' :
  (∀ p, W p → W' p) → fs_step W f f' → fs_step W' f f'.
Proof. intros HW [D F K]. split; auto. Qed.

Lemma fs_step_write f p c f' : write f p c = Some f' → fs_step (eq p) f f'.
Proof.
  intros Hw. split.
  - intros d. by eapply write_dirs.
  - intros q Hq. eapply read_write_ne; eauto.
  - intros q Hq. destruct (decide (q = p)) as [->|Hne].
    + erewrite read_write; eauto.
    + erewrite read_write_ne; eauto.
Qed.

Lemma step_refl W s : step W [] s s.
Proof. split; [apply fs_step_refl|done|by rewrite app_nil_r]. Qed.

Lemma step_trans W t1 t2 s s1 s2 :
  step W t1 s s1 → step W t2 s1 s2 → step W (t1 ++ t2) s s2.
Proof.
  intros [F1 H1 T1] [F2 H2 T2]. split.
  - by eapply fs_step_trans.
  - congruence.
  - by rewrite T2, T1, app_assoc.
Qed.

Lemma step_weaken (W W' : path → Prop) tr s s' :
  (∀ p, W p → W' p) → step W tr s s' → step W' tr s s'.
Proof. intros HW [F H T]. split; eauto using fs_step_weaken. Qed.

Lemma step_emit W e s : step W [e] s (emit e s).
Proof. split; [apply fs_step_refl|done|done]. Qed.

Lemma step_write e s p c f' :
  write (fs s) p c = Some f' → step (eq p) [e] s (set_fs f' (emit e s)).
Proof. intros Hw. split; [by eapply fs_step_write|done|done]. Qed.

Lemma traced_ret {A} W (x : A) : traced W [] (ret x).
Proof.
  intros s r s' [= <- <-]. exists []. split; [done|]. split; [|done].
  apply step_refl.
Qed.

Lemma traced_bind {A B} W L1 L2 (m : M A) (k : A → M B) :
  traced W L1 m → (∀ x, traced W L2 (k x)) → traced W (L1 ++ L2) (bind m k).
Proof.
  intros Hm Hk s r s' Hb.
  apply bind_inv in Hb as [(e & Hs & ->)|(x & s1 & Hs & Hks)].
  - destruct (Hm _ _ _ Hs) as (tr & Hp & Hst & _). exists tr.
    split; [by apply prefix_app_r|]. split; [done|]. by intros.
  - destruct (Hm _ _ _ Hs) as (t1 & _ & Hst1 & Hfull).
    rewrite (Hfull x eq_refl) in Hst1.
    destruct (Hk x _ _ _ Hks) as (t2 & Hp2 & Hst2 & Hfull2).
    exists (L1 ++ t2). split; [by apply prefix_app|].
    split; [by eapply step_trans|].
    intros y Hy. by rewrite (Hfull2 y Hy).
Qed.

Lemma traced_bind_ret {A B} W L (m : M A) (f : A → B) :
  traced W L m → traced W L (bind m (λ x, ret (f x))).
Proof.
  intros Hm. rewrite <- (app_nil_r L).
  apply traced_bind; [done|]. intros x. apply traced_ret.
Qed.

Lemma traced_weaken {A} (W W' : path → Prop) L (m : M A) :
  (∀ p, W p → W' p) → traced W L m → traced W' L m.
Proof.
  intros HW Hm s r s' Hs. destruct (Hm _ _ _ Hs) as (tr & ? & ? & ?).
  exists tr. eauto using step_weaken.
Qed.

Lemma traced_log W msg : traced W [] (log_debug msg).
Proof.
  intros s r s' [= <- <-]. exists []. split; [done|]. split; [|done].
  split; [apply fs_step_refl|done|]. simpl. by rewrite app_nil_r.
Qed.

Lemma traced_run_tool env ev f src dst :
  traced (eq dst) [ev] (run_tool env ev f src dst).
Proof.
  intros s r s'. unfold run_tool.
  destruct (read (fs s) src) as [c|]; [destruct (f c) as [e|c']|];
    [| destruct (write (fs s) dst c') as [f'|] eqn:Hw |];
    intros [= <- <-]; exists [ev];
    (split; [done|]); (split; [|done]);
    first [by eapply step_write | apply step_emit].
Qed.

Lemma traced_copy src dst : traced (eq dst) [ECopy src dst] (shutil_copy src dst).
Proof.
  intros s r s'. unfold shutil_copy.
  destruct (read (fs s) src) as [c|]; [destruct (decide (src = dst))|];
    [| destruct (write (fs s) dst c) as [f'|] eqn:Hw |];
    intros [= <- <-]; exists [ECopy src dst];
    (split; [done|]); (split; [|done]);
    first [by eapply step_write | apply step_emit].
Qed.

Lemma traced_validate env p :
  traced (λ _, False) [EValidateJp2 p] (validate_jp2 env p).
Proof.
  intros s r s'. unfold validate_jp2.
  destruct (read (fs s) p) as [c|]; [destruct (jp2_valid env c)|];
    intros [= <- <-]; exists [EValidateJp2 p];
    (split; [done|]); (split; [|done]); apply step_emit.
Qed.

(** ** [extract_xmp] *)

Lemma release_head h l : release h (h :: l) = l.
Proof.
  change (release h (h :: l))
    with (if decide (h = h) then l else h :: release h l).
  by rewrite decide_True.
Qed.

(** Opening for appending creates the file empty or leaves it as it is. *)
Lemma io_open_append_inv p s r s' :
  io_open_append p s = (r, s') →
  (r = inl IOError ∧ s' = s) ∨
  (r = inr tt ∧ handles s' = HFile p :: handles s ∧ trace s' = trace s ∧
   fs_step (eq p) (fs s) (fs s') ∧
   read (fs s') p = Some (default [] (read (fs s) p))).
Proof.
  unfold io_open_append. destruct (fs s !! p.1) as [m|] eqn:Hd.
  2:{ intros [= <- <-]. by left. }
  intros [= <- <-]. right. simpl. do 3 (split; [done|]).
  destruct (m !! p.2) as [old|] eqn:Hf.
  - rewrite insert_id by done. split; [apply fs_step_refl|].
    unfold read. rewrite Hd. simpl. by rewrite Hf.
  - assert (write (fs s) p [] = Some (<[p.1:=<[p.2:=[]]> m]> (fs s))) as Hw.
    { unfold write. by rewrite Hd. }
    split; [by eapply fs_step_write|].
    rewrite (read_write _ _ _ _ Hw). unfold read. rewrite Hd. simpl.
    by rewrite Hf.
Qed.

(** A write to a file opened for appending only adds bytes at its end. *)
Lemma file_write_inv env p data s r s' :
  file_write env p data s = (r, s') →
  handles s' = handles s ∧ trace s' = trace s ∧
  fs_step (eq p) (fs s) (fs s') ∧
  ∀ old, read (fs s) p = Some old →
    ∃ added, read (fs s') p = Some (old ++ added) ∧
             (r = inr tt → added = data).
Proof.
  unfold file_write. destruct (read (fs s) p) as [old|] eqn:Hr.
  2:{ intros [= <- <-]. do 2 (split; [done|]).
      split; [apply fs_step_refl|]. intros ? [=]. }
  assert (is_Some (fs s !! p.1)) as Hd by (apply read_dir; eauto).
  assert (∀ d, ∃ f', write (fs s) p (old ++ d) = Some f') as Hw.
  { intros d. by apply write_is_Some. }
  destruct (write_fault env p data) as [k|]; intros [= <- <-].
  - destruct (Hw (take k data)) as [f' Hf']. rewrite Hf'. simpl.
    do 2 (split; [done|]). split; [by eapply fs_step_write|].
    intros ? [= <-]. exists (take k data).
    split; [by eapply read_write|done].
  - destruct (Hw data) as [f' Hf']. rewrite Hf'. simpl.
    do 2 (split; [done|]). split; [by eapply fs_step_write|].
    intros ? [= <-]. exists data. split; [by eapply read_write|done].
Qed.

Lemma try_finally_close {A} (body : M A) h s :
  try_finally body (close_handle h) s =
  ((body s).1, set_handles (release h (handles (body s).2)) (body s).2).
Proof. unfold try_finally, close_handle, modify. by destruct (body s). Qed.

(** The [with] block of [extract_xmp]: the sidecar only grows, and its file
    object is closed however the block ends. *)
Lemma append_block_inv env p x s r s' :
  with_open_append p
    (data <- serialize_to_unicode env x ; file_write env p data) s = (r, s') →
  handles s' = handles s ∧ trace s' = trace s ∧
  fs_step (eq p) (fs s) (fs s') ∧
  ∀ old, read (fs s) p = Some old →
    ∃ added, read (fs s') p = Some (old ++ added) ∧
      (r = inr tt →
       ∃ packet, x = Some packet ∧ xmp_serialize env packet = inr added).
Proof.
  unfold with_open_append. intros Hb.
  apply bind_inv in Hb as [(e & Ho & ->)|([] & s1 & Ho & Hb)].
  - apply io_open_append_inv in Ho as [[_ ->]|[[=] _]].
    do 2 (split; [done|]). split; [apply fs_step_refl|].
    intros old Hold. exists []. by rewrite app_nil_r.
  - apply io_open_append_inv in Ho as [[[=] _]|(_ & Hh & Ht & Hf & Hr)].
    rewrite try_finally_close in Hb.
    assert (∀ old, read (fs s) p = Some old → read (fs s1) p = Some (old ++ []))
      as Hkeep.
    { intros old Hold. by rewrite Hr, Hold, app_nil_r. }
    match type of Hb with (fst ?t, _) = _ =>
      destruct t as [rb sb] eqn:Hbody end.
    simpl in Hb. injection Hb as <- <-. simpl.
    apply bind_inv in Hbody as [(e & Hser & ->)|(data & s2 & Hser & Hw)].
    + assert (sb = s1) as ->.
      { destruct x; [|by injection Hser]. by injection Hser. }
      rewrite Hh, release_head. do 3 (split; [done|]).
      intros old Hold. exists []. split; [by apply Hkeep|done].
    + destruct x as [packet|]; [|done]. injection Hser as Hser <-.
      apply file_write_inv in Hw as (Hh' & Ht' & Hf' & Hr').
      rewrite Hh', Hh, release_head. split; [done|].
      split; [congruence|]. split; [by eapply fs_step_trans|].
      intros old Hold. rewrite Hr, Hold in Hr'. simpl in Hr'.
      destruct (Hr' old eq_refl) as (added & Hadd & Hfull).
      exists added. split; [done|]. intros ->. exists packet.
      by rewrite (Hfull eq_refl).
Qed.

(** [extract_xmp] is one call in the trace; it changes the sidecar only, and
    only by appending to it; no handle stays open. *)
Lemma extract_xmp_inv env self img xmp s r s' :
  extract_xmp env self img xmp s = (r, s') →
  step (eq xmp) [EExtractXmp img xmp] s s' ∧
  ∀ old, read (fs s) xmp = Some old →
    ∃ added, read (fs s') xmp = Some (old ++ added) ∧
      (r = inr tt →
       ∃ image packet, read (fs s) img = Some image ∧
         xmp_packet env image = inr (Some packet) ∧
         xmp_serialize env packet = inr added).
Proof.
  unfold extract_xmp. intros Hb.
  apply bind_inv in Hb as [(e & [=] & _)|([] & s0 & [= <-] & Hb)].
  assert (∀ sx, fs sx = fs s → handles sx = handles s →
            trace sx = trace s ++ [EExtractXmp img xmp] →
            step (eq xmp) [EExtractXmp img xmp] s sx) as Hsame.
  { intros sx Hf Hh Ht. split; [rewrite Hf; apply fs_step_refl|done|done]. }
  apply bind_inv in Hb as [(e & Ho & ->)|(image & s1 & Ho & Hb)].
  - unfold XMPFiles in Ho. simpl in Ho.
    destruct (read (fs s) img) as [c|]; [destruct (xmp_can_open env c)|];
      simplify_eq; simpl.
    all: split; [by apply Hsame|]; intros old Hold; exists [];
      by rewrite app_nil_r.
  - unfold XMPFiles in Ho. simpl in Ho.
    destruct (read (fs s) img) as [c|] eqn:Himg; [|done].
    destruct (xmp_can_open env c); [|done]. injection Ho as <- <-.
    rewrite try_finally_close in Hb.
    match type of Hb with (fst (?m ?s1), _) = _ =>
      destruct (m s1) as [rb sb] eqn:Hbody end.
    simpl in Hb. injection Hb as <- <-.
    apply bind_inv in Hbody as [(e & Hg & ->)|(x & s2 & Hg & Hbody)].
    + unfold get_xmp in Hg. injection Hg as Hg <-. simpl.
      rewrite release_head. split; [by apply Hsame|].
      intros old Hold. exists []. by rewrite app_nil_r.
    + unfold get_xmp in Hg. injection Hg as Hg <-.
      apply bind_inv in Hbody as [(e & Ha & ->)|([] & s3 & Ha & Hl)].
      * apply append_block_inv in Ha as (Hh & Ht & Hf & Hr). simpl in *.
        rewrite Hh, release_head. split.
        { by split. }
        intros old Hold. destruct (Hr old Hold) as (added & Hadd & _).
        exists added. by split.
      * apply append_block_inv in Ha as (Hh & Ht & Hf & Hr). simpl in *.
        unfold log_debug, modify in Hl. injection Hl as <- <-. simpl.
        rewrite Hh, release_head. split.
        { by split. }
        intros old Hold. destruct (Hr old Hold) as (added & Hadd & Hfull).
        exists added. split; [done|]. intros _.
        destruct (Hfull eq_refl) as (packet & -> & Hser).
        by exists c, packet.
Qed.

Lemma traced_extract_xmp env self img xmp :
  traced (eq xmp) [EExtractXmp img xmp] (extract_xmp env self img xmp).
Proof.
  intros s r s' Hs. apply extract_xmp_inv in Hs as [Hst _].
  exists [EExtractXmp img xmp]. by split.
Qed.

(** ** The calls of the pipeline, in order *)

Ltac solve_written :=
  let p := fresh "p" in
  solve
    [ intros p; first [intros <- | intros []];
      unfold written, derivative_paths, os_path_join, scratch_tiff;
      first [ by left
            | right; repeat first [apply list_elem_of_here
                                  | apply list_elem_of_further] ] ].

Ltac traced_call lem :=
  eapply (traced_bind _ [_] _);
  [eapply traced_weaken; [|apply lem]; solve_written | intros _].

Ltac traced_next :=
  first
    [ apply traced_ret
    | eapply (traced_bind _ [] _); [apply traced_log | intros _]
    | traced_call traced_run_tool
    | traced_call traced_copy
    | traced_call traced_validate
    | traced_call traced_extract_xmp ].

Lemma jp2_written_written self out scratch p :
  jp2_written self out scratch p → written self out scratch p.
Proof.
  unfold jp2_written, written, derivative_paths.
  intros [-> | [-> | ->]]; [by left|right; set_solver..].
Qed.

Lemma traced_jp2 env self scratch out :
  traced (jp2_written self out scratch) (jp2_calls self scratch out)
    (generate_jp2_derivatives_from_tiff env self scratch out).
Proof.
  unfold generate_jp2_derivatives_from_tiff, jp2_calls, convert_to_jpeg2000,
    convert_tiff_colour_profile, convert_colour_to_jpeg2000.
  repeat first
    [ apply traced_ret
    | eapply (traced_bind _ [] _); [apply traced_log | intros _]
    | eapply (traced_bind _ [_] _);
      [eapply traced_weaken;
       [|first [apply traced_run_tool | apply traced_validate]];
       unfold jp2_written; first [intros ? <- | intros ? []]; tauto
      | intros _] ].
Qed.

Lemma traced_jpg_body env self jpg_file out strip save_xmp d :
  traced (written self out (scratch_tiff env d ".tif"))
    (jpg_calls env self jpg_file out strip save_xmp d)
    (jpg_body env self jpg_file out strip save_xmp d).
Proof.
  unfold jpg_body, jpg_calls, convert_to_tiff.
  traced_next. destruct save_xmp; simpl.
  - eapply (traced_bind _ [_] _).
    { repeat traced_next. }
    intros files. traced_next.
    apply traced_bind_ret. eapply traced_weaken; [|apply traced_jp2].
    apply jp2_written_written.
  - eapply (traced_bind _ [] _); [apply traced_ret|].
    intros files. traced_next.
    apply traced_bind_ret. eapply traced_weaken; [|apply traced_jp2].
    apply jp2_written_written.
Qed.

Lemma traced_tiff_body env self tiff_file out include_tiff save_xmp repage d :
  traced (written self out (scratch_tiff env d ".tiff"))
    (tiff_calls env self tiff_file out include_tiff save_xmp repage d)
    (tiff_body env self tiff_file out include_tiff save_xmp repage d).
Proof.
  unfold tiff_body, tiff_calls, convert_to_jpg, repage_image.
  do 2 traced_next.
  apply traced_bind.
  { destruct save_xmp; [|apply traced_ret].
    eapply (traced_bind _ [_] []); [|intros; apply traced_ret].
    eapply traced_weaken; [|apply traced_extract_xmp]. solve_written. }
  intros files1. apply traced_bind.
  { destruct include_tiff; [|apply traced_ret].
    eapply (traced_bind _ [_] []); [|intros; apply traced_ret].
    eapply traced_weaken; [|apply traced_copy]. solve_written. }
  intros files2. traced_next. apply traced_bind.
  { destruct repage; [|apply traced_ret].
    eapply traced_weaken; [|apply traced_run_tool]. solve_written. }
  intros _. apply traced_bind_ret. eapply traced_weaken; [|apply traced_jp2].
  apply jp2_written_written.
Qed.

(** ** The scratch workspace *)

Lemma mkdtemp_name_fresh dir prefix names f d :
  mkdtemp_name dir prefix names f = Some d → f !! d = None ∧ d ≠ "".
Proof.
  induction names as [|n rest IH]; simpl; [done|].
  destruct (f !! (dir +:+ "/" +:+ prefix +:+ n)) eqn:E; [done|].
  intros [= <-]. split; [done|]. by destruct dir.
Qed.

Lemma mkdtemp_inv env prefix s r s' :
  mkdtemp env prefix s = (r, s') →
  (r = inl FileExistsError ∧ s' = s) ∨
  (∃ d, r = inr d ∧ d ≠ "" ∧ fs s !! d = None ∧
        s' = emit (EMkdtemp d) (set_fs (<[d := ∅]> (fs s)) s)).
Proof.
  unfold mkdtemp.
  destruct (mkdtemp_name _ _ _ _) as [d|] eqn:E; intros [= <- <-].
  - right. exists d. apply mkdtemp_name_fresh in E as [? ?]. by repeat split.
  - by left.
Qed.

(** The new directory is empty: no file can be read that could not before. *)
Lemma read_mkdir f d p : f !! d = None → read (<[d := ∅]> f) p = read f p.
Proof.
  intros Hd. unfold read. destruct (decide (d = p.1)) as [<-|Hne].
  - by rewrite lookup_insert_eq, Hd.
  - by rewrite lookup_insert_ne.
Qed.

Lemma rmtree_ignore_errors env d s :
  rmtree env d true s = (inr tt, set_fs (rmtree_fs env d (fs s)) (emit (ERmtree d) s)).
Proof.
  unfold rmtree, rmtree_fs. destruct (fs s !! d) as [m|]; [|by destruct s].
  by destruct (decide (leftover env d m = ∅)).
Qed.

Lemma cleanup_spec env d s :
  d ≠ "" →
  cleanup env d s =
  (inr tt, set_fs (rmtree_fs env d (fs s)) (emit (ERmtree d) s)).
Proof.
  intros Hd. unfold cleanup. rewrite decide_False by done.
  apply rmtree_ignore_errors.
Qed.

Lemma rmtree_fs_other env d f d' :
  d' ≠ d → rmtree_fs env d f !! d' = f !! d'.
Proof.
  intros Hne. unfold rmtree_fs. destruct (f !! d) as [m|]; [|done].
  destruct (decide (leftover env d m = ∅)).
  - by rewrite lookup_delete_ne.
  - by rewrite lookup_insert_ne.
Qed.

Lemma rmtree_fs_dir env d f m :
  f !! d = Some m →
  rmtree_fs env d f !! d =
  if decide (leftover env d m = ∅) then None else Some (leftover env d m).
Proof.
  intros Hm. unfold rmtree_fs. rewrite Hm.
  destruct (decide (leftover env d m = ∅)).
  - by rewrite lookup_delete_eq.
  - by rewrite lookup_insert_eq.
Qed.

Lemma read_rmtree_other env d f p :
  p.1 ≠ d → read (rmtree_fs env d f) p = read f p.
Proof. intros Hne. unfold read. by rewrite rmtree_fs_other. Qed.

Lemma with_scratch_inv {A} env (body : string → M A) s r s' :
  with_scratch env body s = (r, s') →
  (r = inl FileExistsError ∧ s' = s ∧
   mkdtemp env "image_ingest_" s = (inl FileExistsError, s)) ∨
  (∃ d sb, let s0 := emit (EMkdtemp d) (set_fs (<[d := ∅]> (fs s)) s) in
     mkdtemp env "image_ingest_" s = (inr d, s0) ∧
     d ≠ "" ∧ fs s !! d = None ∧
     body d s0 = (r, sb) ∧
     s' = set_fs (rmtree_fs env d (fs sb)) (emit (ERmtree d) sb)).
Proof.
  unfold with_scratch. intros Hb.
  apply bind_inv in Hb as [(e & Hm & ->)|(d & s0 & Hm & Hb)].
  - destruct (mkdtemp_inv _ _ _ _ _ Hm) as [[[= ->] ->]|(d & [=] & _)].
    by left.
  - destruct (mkdtemp_inv _ _ _ _ _ Hm) as [[[=] _]|(d' & [= <-] & Hd & Hf & ->)].
    right. unfold try_finally in Hb.
    destruct (body d _) as [rb sb] eqn:Hbody.
    rewrite cleanup_spec in Hb by done. injection Hb as <- <-.
    by exists d, sb.
Qed.

Lemma jpg_with_scratch env self jpg_file out strip save_xmp :
  generate_derivatives_from_jpg env self jpg_file out strip save_xmp =
  with_scratch env (jpg_body env self jpg_file out strip save_xmp).
Proof. done. Qed.

Lemma tiff_with_scratch env self tiff_file out include_tiff save_xmp repage :
  generate_derivatives_from_tiff env self tiff_file out include_tiff save_xmp
    repage =
  with_scratch env (tiff_body env self tiff_file out include_tiff save_xmp
                      repage).
Proof. done. Qed.

(** ** Running the calls forward *)

Lemma listdir_write f p c f' :
  write f p c = Some f' → listdir f' p.1 = {[p.2]} ∪ listdir f p.1.
Proof.
  unfold write, listdir. destruct (f !! p.1) as [m|] eqn:E; [|done].
  intros [= <-]. rewrite lookup_insert_eq. simpl. by rewrite dom_insert_L.
Qed.

Lemma listdir_write_ne f p c f' d :
  write f p c = Some f' → d ≠ p.1 → listdir f' d = listdir f d.
Proof.
  unfold write, listdir. destruct (f !! p.1) as [m|] eqn:E; [|done].
  intros [= <-] Hne. by rewrite lookup_insert_ne.
Qed.

Lemma run_tool_read env ev f src dst s c :
  read (fs s) src = Some c →
  run_tool env ev f src dst s =
  match f c with
  | inl e => (inl e, emit ev s)
  | inr c' =>
      match write (fs s) dst c' with
      | Some f' => (inr tt, set_fs f' (emit ev s))
      | None => (inl (tool_io_error env), emit ev s)
      end
  end.
Proof. intros Hr. unfold run_tool. by rewrite Hr. Qed.

Lemma run_tool_ok env ev f src dst s c c' f' :
  read (fs s) src = Some c → f c = inr c' → write (fs s) dst c' = Some f' →
  run_tool env ev f src dst s = (inr tt, set_fs f' (emit ev s)).
Proof. intros Hr Hf Hw. rewrite (run_tool_read _ _ _ _ _ _ c Hr). by rewrite Hf, Hw. Qed.

Lemma run_tool_raises env ev f src dst s c e :
  read (fs s) src = Some c → f c = inl e →
  run_tool env ev f src dst s = (inl e, emit ev s).
Proof. intros Hr Hf. rewrite (run_tool_read _ _ _ _ _ _ c Hr). by rewrite Hf. Qed.

Lemma validate_jp2_read env p s c :
  read (fs s) p = Some c →
  validate_jp2 env p s =
  (if jp2_valid env c then inr tt else inl ValidationError,
   emit (EValidateJp2 p) s).
Proof.
  intros Hr. unfold validate_jp2. rewrite Hr. by destruct (jp2_valid env c).
Qed.

Lemma shutil_copy_ok src dst s c f' :
  read (fs s) src = Some c → src ≠ dst → write (fs s) dst c = Some f' →
  shutil_copy src dst s = (inr tt, set_fs f' (emit (ECopy src dst) s)).
Proof.
  intros Hr Hne Hw. unfold shutil_copy. rewrite Hr, decide_False by done.
  by rewrite Hw.
Qed.

Lemma jp2_exec env self scratch out s c :
  let lossless := os_path_join out (lossless_jp2_filename self) in
  let lossy := os_path_join out (lossy_jp2_filename self) in
  read (fs s) scratch = Some c → is_Some (fs s !! out) → scratch ≠ lossless →
  ∃ s',
    generate_jp2_derivatives_from_tiff env self scratch out s
    = (jp2_outcome env self out c, s') ∧
    trace s' =
      trace s ++ take (jp2_progress env self c) (jp2_calls self scratch out) ∧
    fs_step (jp2_written self out scratch) (fs s) (fs s') ∧
    ∀ files, jp2_outcome env self out c = inr files →
      ∃ j1 c2 j2,
        to_jpeg2000 env true c = inr j1 ∧
        tiff_colour_profile env (icc_profile self) c = inr c2 ∧
        colour_to_jpeg2000 env false c2 = inr j2 ∧
        read (fs s') lossy = Some j2 ∧
        (lossless ≠ lossy → read (fs s') lossless = Some j1) ∧
        (scratch ≠ lossy → read (fs s') scratch = Some c2) ∧
        (scratch.1 ≠ out →
         listdir (fs s') out =
           {[lossless_jp2_filename self; lossy_jp2_filename self]}
           ∪ listdir (fs s) out).
Proof.
  intros lossless lossy Hc Hout Hne.
  cut (∃ s',
    generate_jp2_derivatives_from_tiff env self scratch out s
    = (jp2_outcome env self out c, s') ∧
    trace s' =
      trace s ++ take (jp2_progress env self c) (jp2_calls self scratch out) ∧
    ∀ files, jp2_outcome env self out c = inr files →
      ∃ j1 c2 j2,
        to_jpeg2000 env true c = inr j1 ∧
        tiff_colour_profile env (icc_profile self) c = inr c2 ∧
        colour_to_jpeg2000 env false c2 = inr j2 ∧
        read (fs s') lossy = Some j2 ∧
        (lossless ≠ lossy → read (fs s') lossless = Some j1) ∧
        (scratch ≠ lossy → read (fs s') scratch = Some c2) ∧
        (scratch.1 ≠ out →
         listdir (fs s') out =
           {[lossless_jp2_filename self; lossy_jp2_filename self]}
           ∪ listdir (fs s) out)).
  { intros (s' & Hrun & Htr & Hok). exists s'. do 2 (split; [done|]).
    split; [|done].
    by destruct (traced_jp2 _ _ _ _ _ _ _ Hrun) as (? & _ & [? _ _] & _). }
  unfold generate_jp2_derivatives_from_tiff, jp2_outcome, jp2_progress,
    jp2_calls.
  fold lossless lossy.
  unfold convert_to_jpeg2000, convert_tiff_colour_profile,
    convert_colour_to_jpeg2000.
  set (E1 := EConvertToJpeg2000 scratch lossless true).
  set (E3 := EConvertTiffColourProfile scratch scratch (icc_profile self)).
  set (E4 := EConvertColourToJpeg2000 scratch lossy false).
  destruct (to_jpeg2000 env true c) as [e|j1] eqn:H1.
  { eexists. erewrite bind_inl by (by eapply run_tool_raises).
    split; [done|]. by split. }
  destruct (write_is_Some (fs s) lossless j1 Hout) as [f1 Hw1].
  erewrite bind_inr by (by eapply run_tool_ok).
  assert (read f1 lossless = Some j1) as Hr1 by (by eapply read_write).
  assert (read f1 scratch = Some c) as Hs1.
  { by erewrite read_write_ne. }
  unfold bind at 1. rewrite (validate_jp2_read _ _ _ j1) by done.
  destruct (jp2_valid env j1) eqn:Hv1.
  2:{ eexists. split; [done|]. split; [|done]. simpl.
      by rewrite <- app_assoc. }
  unfold bind at 1. simpl.
  destruct (tiff_colour_profile env (icc_profile self) c) as [e|c2] eqn:H3.
  { eexists. erewrite bind_inl by (by eapply run_tool_raises).
    split; [done|]. split; [|done]. simpl. by rewrite <- !app_assoc. }
  assert (is_Some (f1 !! scratch.1)) as Hd1 by (apply read_dir; eauto).
  destruct (write_is_Some f1 scratch c2 Hd1) as [f2 Hw2].
  erewrite bind_inr by (by eapply run_tool_ok).
  assert (read f2 scratch = Some c2) as Hs2 by (by eapply read_write).
  assert (is_Some (f2 !! out)) as Hout2.
  { by rewrite (write_dirs _ _ _ _ out Hw2), (write_dirs _ _ _ _ out Hw1). }
  destruct (colour_to_jpeg2000 env false c2) as [e|j2] eqn:H4.
  { eexists. erewrite bind_inl by (by eapply run_tool_raises).
    split; [done|]. split; [|done]. simpl. by rewrite <- !app_assoc. }
  destruct (write_is_Some f2 lossy j2 Hout2) as [f3 Hw3].
  erewrite bind_inr by (by eapply run_tool_ok).
  assert (read f3 lossy = Some j2) as Hr3 by (by eapply read_write).
  unfold bind at 1. rewrite (validate_jp2_read _ _ _ j2) by done.
  destruct (jp2_valid env j2) eqn:Hv2.
  2:{ eexists. split; [done|]. split; [|done]. simpl.
      by rewrite <- !app_assoc. }
  eexists. split; [done|]. split.
  { simpl. by rewrite <- !app_assoc. }
  intros files _. exists j1, c2, j2. simpl. do 4 (split; [done|]).
  split; [|split].
  - intros Hll. erewrite (read_write_ne f2) by done.
    erewrite (read_write_ne f1); [done|done|]. congruence.
  - intros Hsl. by erewrite (read_write_ne f2) by done.
  - intros Hso.
    pose proof (listdir_write _ _ _ _ Hw3) as L3.
    pose proof (listdir_write_ne _ _ _ _ out Hw2 (not_eq_sym Hso)) as L2.
    pose proof (listdir_write _ _ _ _ Hw1) as L1.
    simpl in L1, L3. rewrite L3, L2, L1.
    apply set_eq. intros x. rewrite !elem_of_union, !elem_of_singleton. tauto.
Qed.

(** ** Both entry points, framed *)

Lemma leftover_none env d m :
  (∀ n, undeletable env (d, n) = false) → leftover env d m = ∅.
Proof.
  intros Hu. unfold leftover. apply map_empty_filter.
  apply map_Forall_lookup. intros n c _. simpl. by rewrite Hu.
Qed.

Lemma with_scratch_released {A} env (body : string → M A) W L s :
  (∀ d, traced (W d) (L d) (body d)) →
  scratch_released env body (with_scratch env body) s.
Proof.
  intros Hbody. unfold scratch_released.
  destruct (with_scratch env body s) as [r s'] eqn:Hrun.
  apply with_scratch_inv in Hrun
    as [(-> & -> & ->)|(d & sb & Hm & Hd & Hfresh & Hb & ->)]; [done|].
  simpl in Hm. rewrite Hm, Hb. simpl.
  destruct (Hbody d _ _ _ Hb) as (tr & _ & [[Hdirs _ _] _ _] & _).
  simpl in Hdirs.
  assert (is_Some (fs sb !! d)) as [m Hmd].
  { apply Hdirs. rewrite lookup_insert_eq. eauto. }
  assert (rmtree_fs env d (fs sb) !! d =
          if decide (leftover env d m = ∅) then None
          else Some (leftover env d m)) as Hgone
    by (by apply rmtree_fs_dir).
  repeat split; [done| |..].
  - by exists m.
  - intros Hu. rewrite Hgone, decide_True; [done|by apply leftover_none].
  - intros d' Hne. by apply rmtree_fs_other.
Qed.

(** The calls of a whole run, and what it leaves of the files that were
    there before. *)
Lemma with_scratch_frame {A} env self out (scr : string → path)
    (body : string → M A) L s r s' :
  (∀ d, (scr d).1 = d) →
  (∀ d, traced (written self out (scr d)) (L d) (body d)) →
  with_scratch env body s = (r, s') →
  handles s' = handles s ∧
  (∀ p, is_Some (read (fs s) p) → p ∉ derivative_paths self out →
        read (fs s') p = read (fs s) p) ∧
  ((r = inl FileExistsError ∧ s' = s) ∨
   ∃ d tr, fs s !! d = None ∧ tr `prefix_of` L d ∧
           trace s' = trace s ++ EMkdtemp d :: tr ++ [ERmtree d]).
Proof.
  intros Hscr Hbody Hrun.
  apply with_scratch_inv in Hrun
    as [(-> & -> & _)|(d & sb & _ & Hd & Hfresh & Hb & ->)].
  { split; [done|]. split; [done|]. by left. }
  destruct (Hbody d _ _ _ Hb) as (tr & Hpre & [[_ Hframe _] Hh Htr] & _).
  simpl in *. split; [done|]. split.
  - intros p Hp Hnot.
    assert (p.1 ≠ d) as Hne.
    { intros <-. apply read_dir in Hp. rewrite Hfresh in Hp.
      by destruct Hp. }
    rewrite read_rmtree_other by done.
    rewrite Hframe; [by apply read_mkdir|].
    intros [->|Hin]; [|done]. by rewrite Hscr in Hne.
  - right. exists d, tr. split; [done|]. split; [done|].
    rewrite Htr. simpl. by rewrite <- !app_assoc.
Qed.

(** ** Successful runs *)

Lemma extract_xmp_ok env self img xmp s image packet data :
  read (fs s) img = Some image →
  xmp_can_open env image = true →
  xmp_packet env image = inr (Some packet) →
  xmp_serialize env packet = inr data →
  write_fault env xmp data = None →
  is_Some (fs s !! xmp.1) →
  ∃ s', extract_xmp env self img xmp s = (inr tt, s') ∧
        fs_step (eq xmp) (fs s) (fs s') ∧
        read (fs s') xmp = Some (default [] (read (fs s) xmp) ++ data) ∧
        listdir (fs s') xmp.1 = {[xmp.2]} ∪ listdir (fs s) xmp.1.
Proof.
  intros Himg Hopen Hpkt Hser Hfault [m Hdir].
  destruct (extract_xmp env self img xmp s) as [r s'] eqn:Hrun.
  exists s'.
  assert (r = inr tt ∧
          read (fs s') xmp = Some (default [] (read (fs s) xmp) ++ data) ∧
          listdir (fs s') xmp.1 = {[xmp.2]} ∪ listdir (fs s) xmp.1)
    as (-> & Hread & Hls).
  { revert Hrun. unfold extract_xmp, XMPFiles, get_xmp, with_open_append,
      io_open_append, serialize_to_unicode, file_write, close_handle,
      log_debug, modify, try_finally, bind.
    simpl. rewrite Himg, Hopen, Hpkt, Hser. simpl. rewrite Hdir. simpl.
    unfold read at 1. simpl. rewrite lookup_insert_eq. simpl.
    assert (read (fs s) xmp = m !! xmp.2) as Hrd.
    { unfold read. by rewrite Hdir. }
    rewrite Hrd. rewrite Hfault.
    destruct (m !! xmp.2) as [old|] eqn:Hold.
    - rewrite Hold. unfold write. rewrite lookup_insert_eq. simpl.
      intros [= <- <-]. simpl. split; [done|].
      unfold read, listdir. rewrite !lookup_insert_eq. simpl.
      rewrite lookup_insert_eq, Hdir. split; [done|]. simpl.
      rewrite dom_insert_L. done.
    - rewrite lookup_insert_eq. unfold write. rewrite lookup_insert_eq.
      simpl. intros [= <- <-]. simpl. split; [done|].
      unfold read, listdir. rewrite !lookup_insert_eq. simpl.
      rewrite lookup_insert_eq, Hdir. split; [done|]. simpl.
      rewrite !dom_insert_L.
      apply set_eq. intros x. rewrite !elem_of_union. tauto. }
  split; [done|]. split; [|done].
  by destruct (extract_xmp_inv _ _ _ _ _ _ _ Hrun) as [[? _ _] _].
Qed.

Lemma read_write_other_dir f p c f' q :
  write f p c = Some f' → q.1 ≠ p.1 → read f' q = read f q.
Proof. intros Hw Hne. eapply read_write_ne; [done|]. by intros ->. Qed.

Lemma write_keeps_dir f p c f' d :
  write f p c = Some f' → is_Some (f !! d) → is_Some (f' !! d).
Proof. intros Hw Hd. by rewrite (write_dirs _ _ _ _ d Hw). Qed.

(** The [try] block of the TIFF entry point with [include_tiff] and without
    [save_xmp], when every tool succeeds. *)
Lemma tiff_body_ok env self src out (rp : bool) d s (c cj c1 : bytes) files :
  NoDup [jpg_filename self; tiff_filename self; lossless_jp2_filename self;
         lossy_jp2_filename self] →
  read (fs s) src = Some c → src.1 ≠ out → src.1 ≠ d → d ≠ out →
  is_Some (fs s !! out) → is_Some (fs s !! d) →
  to_jpg env c = inr cj →
  (if rp then repage env c else inr c) = inr c1 →
  jp2_outcome env self out c1 = inr files →
  ∃ sb,
    tiff_body env self src out true false rp d s
    = (inr ([os_path_join out (jpg_filename self);
             os_path_join out (tiff_filename self)] ++ files), sb) ∧
    listdir (fs sb) out =
      list_to_set [jpg_filename self; tiff_filename self;
                   lossless_jp2_filename self; lossy_jp2_filename self]
      ∪ listdir (fs s) out ∧
    read (fs sb) (os_path_join out (tiff_filename self)) = Some c ∧
    read (fs sb) src = Some c.
Proof.
  intros Hnd Hc Hso Hsd Hdo Hout Hd Hj Hrp Hjp2.
  unfold tiff_body, convert_to_jpg, repage_image.
  set (jpeg := os_path_join out (jpg_filename self)).
  set (tiff := os_path_join out (tiff_filename self)).
  set (scratch := os_path_join d (uuid4 env +:+ ".tiff")).
  (* full.jpg *)
  destruct (write_is_Some (fs s) jpeg cj Hout) as [f1 Hw1].
  erewrite bind_inr by (by eapply run_tool_ok).
  erewrite bind_inr by reflexivity.
  erewrite bind_inr by reflexivity.
  assert (read f1 src = Some c) as Hc1.
  { by erewrite read_write_other_dir. }
  (* full.tiff *)
  assert (is_Some (f1 !! out)) as Hout1 by (by eapply write_keeps_dir).
  destruct (write_is_Some f1 tiff c Hout1) as [f2 Hw2].
  erewrite bind_inr; cycle 1.
  { erewrite bind_inr; [reflexivity|].
    eapply shutil_copy_ok; simpl; [done| |done]. by intros ->. }
  assert (read f2 src = Some c) as Hc2.
  { by erewrite read_write_other_dir. }
  (* the scratch copy *)
  assert (is_Some (f2 !! d)) as Hd2 by eauto using write_keeps_dir.
  destruct (write_is_Some f2 scratch c Hd2) as [f3 Hw3].
  erewrite bind_inr; cycle 1.
  { eapply shutil_copy_ok; simpl; [done| |done]. by intros ->. }
  assert (read f3 scratch = Some c) as Hs3 by (by eapply read_write).
  (* repage *)
  assert (∃ f4, write f3 scratch c1 = Some f4) as [f4 Hw4].
  { apply write_is_Some. by eapply write_keeps_dir. }
  set (s3 := set_fs f3 _).
  assert (∃ s4, (if rp
                 then run_tool env (ERepageImage scratch scratch) (repage env)
                        scratch scratch
                 else ret ()) s3 = (inr tt, s4) ∧
                read (fs s4) scratch = Some c1 ∧
                is_Some (fs s4 !! out) ∧
                listdir (fs s4) out = listdir f3 out ∧
                ∀ q, q.1 ≠ d → read (fs s4) q = read f3 q)
    as (s4 & Hrun4 & Hs4 & Hout4 & Hls4 & Hfr4).
  { assert (is_Some (f3 !! out)) as Hout3 by eauto using write_keeps_dir.
    destruct rp.
    - eexists. split; [by eapply run_tool_ok|]. simpl.
      split; [by eapply read_write|].
      split; [by eapply write_keeps_dir|].
      split; [by eapply listdir_write_ne|].
      intros q Hq. by eapply read_write_other_dir.
    - injection Hrp as <-. by eexists. }
  erewrite bind_inr by exact Hrun4.
  (* the two JP2 files *)
  destruct (jp2_exec env self scratch out s4 c1)
    as (s5 & Hrun5 & _ & Hst5 & Hok5); [done|done|by intros [=]|].
  rewrite Hjp2 in Hrun5. erewrite bind_inr by exact Hrun5.
  eexists. split; [done|]. simpl.
  destruct (Hok5 files Hjp2) as (j1 & c2 & j2 & _ & _ & _ & _ & _ & _ & Hls).
  apply NoDup_cons in Hnd as [Hn1 Hnd]. apply NoDup_cons in Hnd as [Hn2 Hnd].
  assert (∀ p, p.1 ≠ d → ¬ jp2_written self out scratch p →
            read (fs s5) p = read f3 p) as Hframe.
  { intros p Hp Hnw. rewrite (fs_frame _ _ _ Hst5) by done. by apply Hfr4. }
  split; [|split].
  - rewrite Hls, Hls4 by done.
    rewrite (listdir_write_ne _ _ _ _ out Hw3) by done.
    pose proof (listdir_write _ _ _ _ Hw2) as L2.
    pose proof (listdir_write _ _ _ _ Hw1) as L1.
    simpl in L1, L2. rewrite L2, L1. simpl.
    apply set_eq. intros x.
    rewrite !elem_of_union, !elem_of_singleton, elem_of_empty. tauto.
  - rewrite Hframe.
    + erewrite (read_write_other_dir f2) by done. by eapply read_write.
    + done.
    + unfold jp2_written, tiff, os_path_join.
      intros [[= ? _]|[[= E]|[= E]]]; [done|apply Hn2; rewrite E..].
      * apply list_elem_of_here.
      * apply list_elem_of_further, list_elem_of_here.
  - rewrite Hframe.
    + by erewrite (read_write_other_dir f2) by done.
    + done.
    + unfold jp2_written, os_path_join.
      intros [-> | [-> | ->]]; simpl in *; done.
Qed.

(** The [try] block of the JPEG entry point with [save_xmp], when every tool
    succeeds. *)
Lemma jpg_body_ok env self src out (strip : bool) d s
    (c packet data ct : bytes) files :
  NoDup [jpg_filename self; xmp_filename self; lossless_jp2_filename self;
         lossy_jp2_filename self] →
  read (fs s) src = Some c → src.1 ≠ out → src.1 ≠ d → d ≠ out →
  is_Some (fs s !! out) → is_Some (fs s !! d) →
  xmp_can_open env c = true →
  xmp_packet env c = inr (Some packet) →
  xmp_serialize env packet = inr data →
  write_fault env (os_path_join out (xmp_filename self)) data = None →
  to_tiff env (if strip then ["-strip"] else []) c = inr ct →
  jp2_outcome env self out ct = inr files →
  ∃ sb,
    jpg_body env self src out strip true d s
    = (inr ([os_path_join out (jpg_filename self);
             os_path_join out (xmp_filename self)] ++ files), sb) ∧
    listdir (fs sb) out =
      list_to_set [jpg_filename self; xmp_filename self;
                   lossless_jp2_filename self; lossy_jp2_filename self]
      ∪ listdir (fs s) out ∧
    read (fs sb) (os_path_join out (jpg_filename self)) = Some c ∧
    read (fs sb) src = Some c.
Proof.
  intros Hnd Hc Hso Hsd Hdo Hout Hd Hopen Hpkt Hser Hfault Ht Hjp2.
  unfold jpg_body, convert_to_tiff.
  set (jpeg := os_path_join out (jpg_filename self)).
  set (xmp := os_path_join out (xmp_filename self)).
  set (scratch := os_path_join d (uuid4 env +:+ ".tif")).
  apply NoDup_cons in Hnd as [Hn1 Hnd]. apply NoDup_cons in Hnd as [Hn2 Hnd].
  assert (jpeg ≠ xmp) as Hjx.
  { intros [= E]. apply Hn1. rewrite E. apply list_elem_of_here. }
  (* full.jpg *)
  destruct (write_is_Some (fs s) jpeg c Hout) as [f1 Hw1].
  erewrite bind_inr; cycle 1.
  { eapply shutil_copy_ok; [done| |done]. by intros ->. }
  assert (read f1 jpeg = Some c) as Hj1 by (by eapply read_write).
  assert (read f1 src = Some c) as Hc1 by (by erewrite read_write_other_dir).
  (* xmp.xml *)
  set (s1 := set_fs f1 _).
  destruct (extract_xmp_ok env self jpeg xmp s1 c packet data)
    as (s2 & Hrun2 & Hst2 & _ & Hls2); [done..|by eapply write_keeps_dir|].
  erewrite bind_inr; cycle 1.
  { erewrite bind_inr by exact Hrun2. reflexivity. }
  assert (read (fs s2) jpeg = Some c) as Hj2.
  { rewrite (fs_frame _ _ _ Hst2); [done|]. by intros <-. }
  (* the scratch TIFF *)
  assert (is_Some (fs s2 !! d)) as Hd2.
  { apply Hst2. simpl. by eapply write_keeps_dir. }
  assert (is_Some (fs s2 !! out)) as Hout2.
  { apply Hst2. simpl. by eapply write_keeps_dir. }
  destruct (write_is_Some (fs s2) scratch ct Hd2) as [f3 Hw3].
  erewrite bind_inr by (by eapply run_tool_ok).
  (* the two JP2 files *)
  set (s3 := set_fs f3 _).
  destruct (jp2_exec env self scratch out s3 ct)
    as (s5 & Hrun5 & _ & Hst5 & Hok5);
    [by eapply read_write|by eapply write_keeps_dir|by intros [=]|].
  rewrite Hjp2 in Hrun5. erewrite bind_inr by exact Hrun5.
  eexists. split; [done|]. simpl.
  destruct (Hok5 files Hjp2) as (j1 & c2 & j2 & _ & _ & _ & _ & _ & _ & Hls).
  assert (∀ p, p.1 ≠ d → p ≠ xmp → ¬ jp2_written self out scratch p →
            read (fs s5) p = read f1 p) as Hframe.
  { intros p Hp Hx Hnw. rewrite (fs_frame _ _ _ Hst5) by done. simpl.
    erewrite (read_write_other_dir (fs s2)) by done.
    apply (fs_frame _ _ _ Hst2). by intros <-. }
  split; [|split].
  - rewrite Hls by done. simpl.
    rewrite (listdir_write_ne _ _ _ _ out Hw3) by done.
    simpl in Hls2. rewrite Hls2. simpl.
    pose proof (listdir_write _ _ _ _ Hw1) as L1.
    simpl in L1. rewrite L1.
    apply set_eq. intros x.
    rewrite !elem_of_union, !elem_of_singleton, elem_of_empty. tauto.
  - rewrite Hframe; [done|done|done|].
    unfold jp2_written, jpeg, os_path_join.
    intros [[= ? _]|[[= E]|[= E]]]; [done|apply Hn1; rewrite E..].
    + apply list_elem_of_further, list_elem_of_here.
    + do 2 apply list_elem_of_further. apply list_elem_of_here.
  - rewrite Hframe; [done|done|by intros ->|].
    unfold jp2_written, os_path_join.
    intros [-> | [-> | ->]]; simpl in *; done.
Qed.

Lemma with_scratch_run {A} env (body : string → M A) s d :
  mkdtemp_name (tmpdir env) "image_ingest_" (tmp_names env) (fs s) = Some d →
  with_scratch env body s =
  let rb := body d (emit (EMkdtemp d) (set_fs (<[d := ∅]> (fs s)) s)) in
  (rb.1, set_fs (rmtree_fs env d (fs rb.2)) (emit (ERmtree d) rb.2)).
Proof.
  intros Hd. unfold with_scratch, bind, mkdtemp. rewrite Hd.
  apply mkdtemp_name_fresh in Hd as [_ Hne].
  unfold try_finally. destruct (body d _) as [r sb]. simpl.
  by rewrite cleanup_spec.
Qed.

Lemma listdir_rmtree_other env d f d' :
  d' ≠ d → listdir (rmtree_fs env d f) d' = listdir f d'.
Proof. intros Hne. unfold listdir. by rewrite rmtree_fs_other. Qed.

Lemma listdir_mkdir f d d' :
  f !! d = None → listdir (<[d := ∅]> f) d' = listdir f d'.
Proof.
  intros Hd. unfold listdir. destruct (decide (d = d')) as [<-|Hne].
  - by rewrite lookup_insert_eq, Hd.
  - by rewrite lookup_insert_ne.
Qed.

(** * The claims *)

(** ** C3: the scratch workspace *)

(** C3.  In every run of [generate_derivatives_from_jpg] and of
    [generate_derivatives_from_tiff], removing the scratch folder made at the
    start is the last call of the run, after the [try] block has succeeded or
    raised; the folder is then gone, but for files that cannot be deleted; and
    the run returns or raises what its [try] block returned or raised, whether
    or not the removal failed. *)
Theorem scratch_workspace_released env self src out
    (strip include_tiff save_xmp rp : bool) s :
  scratch_released env (jpg_body env self src out strip save_xmp)
    (generate_derivatives_from_jpg env self src out strip save_xmp) s ∧
  scratch_released env (tiff_body env self src out include_tiff save_xmp rp)
    (generate_derivatives_from_tiff env self src out include_tiff save_xmp rp)
    s.
Proof.
  split.
  - rewrite jpg_with_scratch. eapply with_scratch_released.
    intros d. apply traced_jpg_body.
  - rewrite tiff_with_scratch. eapply with_scratch_released.
    intros d. apply traced_tiff_body.
Qed.

(** ** C4: structural validation of the two JP2 files *)

(** C4.  In [generate_jp2_derivatives_from_tiff] the calls made are an
    initial part of: convert to lossless JP2, validate it, apply the profile,
    convert to lossy JP2, validate it.  Once a conversion has written its JP2
    the next call validates that file, and when the file is structurally
    invalid the run raises [ValidationError] and makes no further call. *)
Theorem jp2_validated_after_generation env self scratch out s (c : bytes) :
  let lossless := os_path_join out (lossless_jp2_filename self) in
  let lossy := os_path_join out (lossy_jp2_filename self) in
  let run := generate_jp2_derivatives_from_tiff env self scratch out s in
  let calls := jp2_calls self scratch out in
  read (fs s) scratch = Some c → is_Some (fs s !! out) → scratch ≠ lossless →
  (∃ n, trace run.2 = trace s ++ take n calls) ∧
  (∀ j1, to_jpeg2000 env true c = inr j1 →
     trace run.2 !! (length (trace s) + 1) = Some (EValidateJp2 lossless) ∧
     (jp2_valid env j1 = false →
      run.1 = inl ValidationError ∧ trace run.2 = trace s ++ take 2 calls)) ∧
  (∀ j1 c2 j2,
     to_jpeg2000 env true c = inr j1 → jp2_valid env j1 = true →
     tiff_colour_profile env (icc_profile self) c = inr c2 →
     colour_to_jpeg2000 env false c2 = inr j2 →
     trace run.2 !! (length (trace s) + 4) = Some (EValidateJp2 lossy) ∧
     (jp2_valid env j2 = false →
      run.1 = inl ValidationError ∧ trace run.2 = trace s ++ calls)).
Proof.
  intros lossless lossy run calls Hc Hout Hne.
  destruct (jp2_exec env self scratch out s c Hc Hout Hne)
    as (s' & Hrun & Htr & _).
  subst run. rewrite Hrun. simpl. rewrite Htr.
  unfold jp2_outcome, jp2_progress. split; [eauto|]. split.
  - intros j1 ->. split.
    + rewrite lookup_app_r by lia.
      replace (length (trace s) + 1 - length (trace s)) with 1 by lia.
      destruct (jp2_valid env j1); [|done].
      destruct (tiff_colour_profile _ _ _) as [|c2]; [done|].
      by destruct (colour_to_jpeg2000 _ _ _).
    + by intros ->.
  - intros j1 c2 j2 -> -> -> ->. split.
    + rewrite lookup_app_r by lia.
      by replace (length (trace s) + 4 - length (trace s)) with 4 by lia.
    + by intros ->.
Qed.

(** ** C6: the profile comes after the lossless JP2 *)

Lemma jp2_calls_profile self scratch out n i src dst icc :
  take n (jp2_calls self scratch out) !! i
  = Some (EConvertTiffColourProfile src dst icc) →
  i = 2 ∧ src = scratch ∧ dst = scratch ∧ 2 < n.
Proof.
  intros H. apply lookup_take_Some in H as [H Hlt]. unfold jp2_calls in H.
  destruct i as [|[|[|[|[|i]]]]]; simpl in H; try discriminate H.
  injection H as <- <- _. repeat split; lia.
Qed.

(** C6.  In [generate_jp2_derivatives_from_tiff] the profile is applied to
    the scratch TIFF as third call, and only when the lossless JP2 was
    generated from the bytes the scratch TIFF had on entry and passed
    validation.  In a finished run the lossless JP2 is the conversion of
    those unprofiled bytes, the scratch TIFF holds the profiled bytes, and the
    lossy JP2 is the conversion of the profiled bytes. *)
Theorem profile_applied_after_lossless env self scratch out s (c : bytes) :
  let lossless := os_path_join out (lossless_jp2_filename self) in
  let lossy := os_path_join out (lossy_jp2_filename self) in
  let run := generate_jp2_derivatives_from_tiff env self scratch out s in
  let calls := jp2_calls self scratch out in
  read (fs s) scratch = Some c → is_Some (fs s !! out) → scratch ≠ lossless →
  ∃ tr, trace run.2 = trace s ++ tr ∧ tr `prefix_of` calls ∧
    (∀ i src dst icc,
       tr !! i = Some (EConvertTiffColourProfile src dst icc) →
       src = scratch ∧ dst = scratch ∧
       tr !! 0 = Some (EConvertToJpeg2000 scratch lossless true) ∧
       tr !! 1 = Some (EValidateJp2 lossless) ∧ i = 2 ∧
       ∃ j1, to_jpeg2000 env true c = inr j1 ∧ jp2_valid env j1 = true) ∧
    (∀ files, run.1 = inr files →
       ∃ j1 c2 j2,
         to_jpeg2000 env true c = inr j1 ∧
         tiff_colour_profile env (icc_profile self) c = inr c2 ∧
         colour_to_jpeg2000 env false c2 = inr j2 ∧
         read (fs run.2) lossy = Some j2 ∧
         (lossless ≠ lossy → read (fs run.2) lossless = Some j1) ∧
         (scratch ≠ lossy → read (fs run.2) scratch = Some c2)).
Proof.
  intros lossless lossy run calls Hc Hout Hne.
  destruct (jp2_exec env self scratch out s c Hc Hout Hne)
    as (s' & Hrun & Htr & _ & Hok).
  subst run. rewrite Hrun. simpl.
  exists (take (jp2_progress env self c) calls).
  split; [done|]. split; [apply prefix_take|]. split.
  - intros i src dst icc Hi.
    apply jp2_calls_profile in Hi as (-> & -> & -> & Hn).
    do 2 (split; [done|]).
    rewrite !lookup_take_lt by lia. do 3 (split; [done|]).
    revert Hn. unfold jp2_progress.
    destruct (to_jpeg2000 env true c) as [e|j1]; [lia|].
    destruct (jp2_valid env j1) eqn:Hv; [intros _; by exists j1|lia].
  - intros files Hf.
    destruct (Hok files Hf) as (j1 & c2 & j2 & ? & ? & ? & ? & ? & ? & _).
    by exists j1, c2, j2.
Qed.

(** ** The outcome of the JP2 stage *)

(** X13.  The outcome of [generate_jp2_derivatives_from_tiff] on an existing
    scratch TIFF and output folder is [jp2_outcome]: the exception of the
    first converter that raises, [ValidationError] when a JP2 it wrote is
    not structurally valid, and the two JP2 paths otherwise.  It is a
    function of what the converters return and of the structural validity of
    the two JP2 files alone. *)
Theorem jp2_outcome_by_validation_only env self scratch out s (c : bytes) :
  read (fs s) scratch = Some c → is_Some (fs s !! out) →
  scratch ≠ os_path_join out (lossless_jp2_filename self) →
  (generate_jp2_derivatives_from_tiff env self scratch out s).1
  = jp2_outcome env self out c.
Proof.
  intros Hc Hout Hne.
  destruct (jp2_exec env self scratch out s c Hc Hout Hne) as (s' & -> & _).
  done.
Qed.

(** ** C5: the source file *)

Lemma jp2_calls_destructive self scratch out e p :
  e ∈ jp2_calls self scratch out → destructive_target e = Some p →
  p = scratch.
Proof.
  unfold jp2_calls. intros He Hp.
  repeat (apply elem_of_cons in He as [->|He]); simpl in Hp;
    try discriminate Hp; [by injection Hp|by apply elem_of_nil in He].
Qed.

Lemma jpg_calls_destructive env self src out strip save_xmp d e p :
  e ∈ jpg_calls env self src out strip save_xmp d →
  destructive_target e = Some p → p = scratch_tiff env d ".tif".
Proof.
  unfold jpg_calls. intros He Hp.
  apply elem_of_app in He as [He|He].
  { apply list_elem_of_singleton in He as ->. discriminate Hp. }
  apply elem_of_app in He as [He|He].
  { destruct save_xmp; [|by apply elem_of_nil in He].
    apply list_elem_of_singleton in He as ->. discriminate Hp. }
  apply elem_of_app in He as [He|He].
  { apply list_elem_of_singleton in He as ->. discriminate Hp. }
  by eapply jp2_calls_destructive.
Qed.

Lemma tiff_calls_destructive env self src out include_tiff save_xmp rp d e p :
  e ∈ tiff_calls env self src out include_tiff save_xmp rp d →
  destructive_target e = Some p → p = scratch_tiff env d ".tiff".
Proof.
  unfold tiff_calls. intros He Hp.
  apply elem_of_app in He as [He|He].
  { apply list_elem_of_singleton in He as ->. discriminate Hp. }
  apply elem_of_app in He as [He|He].
  { destruct save_xmp; [|by apply elem_of_nil in He].
    apply list_elem_of_singleton in He as ->. discriminate Hp. }
  apply elem_of_app in He as [He|He].
  { destruct include_tiff; [|by apply elem_of_nil in He].
    apply list_elem_of_singleton in He as ->. discriminate Hp. }
  apply elem_of_app in He as [He|He].
  { apply list_elem_of_singleton in He as ->. discriminate Hp. }
  apply elem_of_app in He as [He|He].
  { destruct rp; [|by apply elem_of_nil in He].
    apply list_elem_of_singleton in He as ->. by injection Hp. }
  by eapply jp2_calls_destructive.
Qed.

Lemma with_scratch_untouched {A} env self src out (scr : string → path)
    (body : string → M A) L s :
  (∀ d, (scr d).1 = d) →
  (∀ d, traced (written self out (scr d)) (L d) (body d)) →
  (∀ d e p, e ∈ L d → destructive_target e = Some p → p = scr d) →
  is_Some (read (fs s) src) →
  source_untouched self src out s (with_scratch env body s).2.
Proof.
  intros Hscr Hbody Hdes Hsrc.
  destruct (with_scratch env body s) as [r s'] eqn:Hrun. simpl.
  destruct (with_scratch_frame env self out scr body L s r s' Hscr Hbody Hrun)
    as (_ & Hframe & [[_ ->]|(d & tr & Hfresh & Hpre & Htr)]).
  { exists []. rewrite app_nil_r. split; [done|]. split; [|done].
    intros e p He. by apply elem_of_nil in He. }
  exists (EMkdtemp d :: tr ++ [ERmtree d]). split; [done|]. split; [|auto].
  intros e p He Hp.
  apply elem_of_cons in He as [->|He]; [discriminate Hp|].
  apply elem_of_app in He as [He|He].
  2:{ apply list_elem_of_singleton in He as ->. discriminate Hp. }
  assert (e ∈ L d) as HeL.
  { destruct Hpre as [k ->]. apply elem_of_app. by left. }
  rewrite (Hdes d e p HeL Hp), Hscr. split; [|split; [done|]].
  - intros <-. apply read_dir in Hsrc. rewrite Hscr, Hfresh in Hsrc.
    by destruct Hsrc.
  - apply list_elem_of_here.
Qed.

(** C5, as the code has it.  Take paths that are plain ([plain_paths]) and
    a source file that exists.  In every run of either entry point each
    repage and each profile application overwrites a file of the scratch
    folder made by the run, never the source path; and the bytes of a source
    that is not one of the derivative paths of the output folder are the same
    after the run as before.  (A source at a derivative path is overwritten
    by that derivative.) *)
Theorem source_file_untouched env self src out
    (strip include_tiff save_xmp rp : bool) s :
  plain_paths self src out →
  is_Some (read (fs s) src) →
  source_untouched self src out s
    (generate_derivatives_from_jpg env self src out strip save_xmp s).2 ∧
  source_untouched self src out s
    (generate_derivatives_from_tiff env self src out include_tiff save_xmp rp
       s).2.
Proof.
  intros _ Hsrc. split.
  - rewrite jpg_with_scratch.
    eapply (with_scratch_untouched _ _ _ _ (λ d, scratch_tiff env d ".tif"));
      [done|intros d; apply traced_jpg_body| |done].
    intros d e p. apply jpg_calls_destructive.
  - rewrite tiff_with_scratch.
    eapply (with_scratch_untouched _ _ _ _ (λ d, scratch_tiff env d ".tiff"));
      [done|intros d; apply traced_tiff_body| |done].
    intros d e p. apply tiff_calls_destructive.
Qed.

(** ** C10: the sidecar and the libxmp handle *)

(** C10.  When the sidecar exists, [extract_xmp] keeps its bytes and only
    adds bytes after them, however the call ends; when the call succeeds the
    bytes added are the serialized XMP packet of the image; and however the
    call ends, no handle it opened is left open. *)
Theorem extract_xmp_appends_and_closes env self img xmp s (old : bytes) :
  read (fs s) xmp = Some old →
  (∃ added,
     read (fs (extract_xmp env self img xmp s).2) xmp = Some (old ++ added) ∧
     ((extract_xmp env self img xmp s).1 = inr tt →
      ∃ image packet,
        read (fs s) img = Some image ∧
        xmp_packet env image = inr (Some packet) ∧
        xmp_serialize env packet = inr added)) ∧
  handles (extract_xmp env self img xmp s).2 = handles s.
Proof.
  intros Hold. destruct (extract_xmp env self img xmp s) as [r s'] eqn:Hrun.
  apply extract_xmp_inv in Hrun as [[_ Hh _] Hsidecar]. simpl.
  split; [by apply Hsidecar|done].
Qed.

(** ** C8 and C7: the files of a successful run *)

Lemma empty_dir_elsewhere (f : FS) out p (c : bytes) :
  f !! out = Some ∅ → read f p = Some c → p.1 ≠ out.
Proof.
  unfold read. intros Hout Hp <-. rewrite Hout in Hp. simpl in Hp.
  by rewrite lookup_empty in Hp.
Qed.

Lemma fresh_dir_elsewhere (f : FS) d p :
  f !! d = None → is_Some (read f p) → p.1 ≠ d.
Proof.
  intros Hd Hp <-. apply read_dir in Hp. rewrite Hd in Hp. by destruct Hp.
Qed.

Lemma listdir_empty (f : FS) out : f !! out = Some ∅ → listdir f out = ∅.
Proof. intros Hout. unfold listdir. rewrite Hout. simpl. apply dom_empty_L. Qed.

(** C8.  Take a TIFF source on which every tool succeeds (a standard TIFF),
    an empty output folder and distinct derivative names.  A run of
    [generate_derivatives_from_tiff] with [include_tiff] and the other
    options at their defaults returns four paths, the output folder then
    holds exactly these four files (JPEG, TIFF copy, lossless JP2, lossy
    JP2), and the TIFF copy has the bytes of the source, which still has
    them. *)
Theorem tiff_run_four_files env self src out (rp : bool) s
    (c cj c1 : bytes) :
  let names := [jpg_filename self; tiff_filename self;
                lossless_jp2_filename self; lossy_jp2_filename self] in
  let run :=
    generate_derivatives_from_tiff env self src out true false rp s in
  NoDup names →
  read (fs s) src = Some c →
  fs s !! out = Some ∅ →
  is_Some (mkdtemp_name (tmpdir env) "image_ingest_" (tmp_names env) (fs s)) →
  to_jpg env c = inr cj →
  (if rp then repage env c else inr c) = inr c1 →
  jp2_outcome env self out c1
  = inr [os_path_join out (lossless_jp2_filename self);
         os_path_join out (lossy_jp2_filename self)] →
  run.1 = inr (os_path_join out <$> names) ∧
  listdir (fs run.2) out = list_to_set names ∧
  size (listdir (fs run.2) out) = 4 ∧
  read (fs run.2) (os_path_join out (tiff_filename self)) = Some c ∧
  read (fs run.2) src = Some c.
Proof.
  intros names run Hnd Hc Hout [d Hd] Hj Hrp Hjp2. subst run.
  rewrite tiff_with_scratch, (with_scratch_run _ _ _ _ Hd). simpl.
  destruct (mkdtemp_name_fresh _ _ _ _ _ Hd) as [Hfresh _].
  assert (d ≠ out) as Hdo by (intros ->; congruence).
  assert (src.1 ≠ out) as Hso by (by eapply empty_dir_elsewhere).
  assert (src.1 ≠ d) as Hsd by (eapply fresh_dir_elsewhere; eauto).
  set (s0 := emit _ _).
  destruct (tiff_body_ok env self src out rp d s0 c cj c1
      [os_path_join out (lossless_jp2_filename self);
       os_path_join out (lossy_jp2_filename self)] Hnd)
    as (sb & -> & Hls & Htiff & Hsrc); try done.
  { simpl. by rewrite read_mkdir. }
  { simpl. rewrite lookup_insert_ne by done. by rewrite Hout. }
  { simpl. rewrite lookup_insert_eq. eauto. }
  simpl. rewrite listdir_rmtree_other, !read_rmtree_other by done.
  assert (listdir (fs sb) out = list_to_set names) as Hnames.
  { rewrite Hls. simpl. rewrite listdir_mkdir by done.
    rewrite (listdir_empty _ _ Hout). apply union_empty_r_L. }
  split; [done|]. split; [done|]. split; [|done].
  rewrite Hnames. by rewrite size_list_to_set.
Qed.

(** C7, as the code has it.  Take a JPEG source on which every tool succeeds
    (a standard JPEG), an empty output folder and distinct derivative names.
    A run of [generate_derivatives_from_jpg] with [save_xmp] returns four
    paths, the output folder then holds exactly these four files (JPEG copy,
    XMP sidecar, lossless JP2 and lossy JP2), and the JPEG copy has the bytes
    of the source, which still has them. *)
Theorem jpg_run_four_files env self src out (strip : bool) s
    (c packet data ct : bytes) :
  let names := [jpg_filename self; xmp_filename self;
                lossless_jp2_filename self; lossy_jp2_filename self] in
  let run := generate_derivatives_from_jpg env self src out strip true s in
  NoDup names →
  read (fs s) src = Some c →
  fs s !! out = Some ∅ →
  is_Some (mkdtemp_name (tmpdir env) "image_ingest_" (tmp_names env) (fs s)) →
  xmp_can_open env c = true →
  xmp_packet env c = inr (Some packet) →
  xmp_serialize env packet = inr data →
  write_fault env (os_path_join out (xmp_filename self)) data = None →
  to_tiff env (if strip then ["-strip"] else []) c = inr ct →
  jp2_outcome env self out ct
  = inr [os_path_join out (lossless_jp2_filename self);
         os_path_join out (lossy_jp2_filename self)] →
  run.1 = inr (os_path_join out <$> names) ∧
  listdir (fs run.2) out = list_to_set names ∧
  size (listdir (fs run.2) out) = 4 ∧
  read (fs run.2) (os_path_join out (jpg_filename self)) = Some c ∧
  read (fs run.2) src = Some c.
Proof.
  intros names run Hnd Hc Hout [d Hd] Hopen Hpkt Hser Hfault Ht Hjp2.
  subst run.
  rewrite jpg_with_scratch, (with_scratch_run _ _ _ _ Hd). simpl.
  destruct (mkdtemp_name_fresh _ _ _ _ _ Hd) as [Hfresh _].
  assert (d ≠ out) as Hdo by (intros ->; congruence).
  assert (src.1 ≠ out) as Hso by (by eapply empty_dir_elsewhere).
  assert (src.1 ≠ d) as Hsd by (eapply fresh_dir_elsewhere; eauto).
  set (s0 := emit _ _).
  destruct (jpg_body_ok env self src out strip d s0 c packet data ct
      [os_path_join out (lossless_jp2_filename self);
       os_path_join out (lossy_jp2_filename self)] Hnd)
    as (sb & -> & Hls & Hjpg & Hsrc); try done.
  { simpl. by rewrite read_mkdir. }
  { simpl. rewrite lookup_insert_ne by done. by rewrite Hout. }
  { simpl. rewrite lookup_insert_eq. eauto. }
  simpl. rewrite listdir_rmtree_other, !read_rmtree_other by done.
  assert (listdir (fs sb) out = list_to_set names) as Hnames.
  { rewrite Hls. simpl. rewrite listdir_mkdir by done.
    rewrite (listdir_empty _ _ Hout). apply union_empty_r_L. }
  split; [done|]. split; [done|]. split; [|done].
  rewrite Hnames. by rewrite size_list_to_set.
Qed.

(** ** C2: no colour-profile check *)

Ltac traced_atom :=
  first
    [ apply traced_ret
    | apply traced_log
    | eapply traced_weaken;
      [|first [ apply traced_run_tool | apply traced_copy
              | apply traced_validate | apply traced_extract_xmp
              | apply traced_jp2 ]];
      first [solve_written | apply jp2_written_written] ].

Ltac traced_auto :=
  first
    [ traced_atom
    | apply traced_bind_ret; traced_auto
    | eapply traced_bind; [traced_auto | intros ?; traced_auto] ].

(** C2, as the code has it.  [generate_derivatives_from_tiff] makes no
    colour-profile check: whatever the options and whatever the source holds,
    its first call after making the scratch folder converts the source to the
    JPEG derivative in the output folder.  When that conversion raises, the
    run raises the same and the output folder is as before; when it succeeds,
    the JPEG derivative is in the output folder after the run, however the
    run ends. *)
Theorem tiff_run_starts_with_jpeg_conversion env self src out
    (include_tiff save_xmp rp : bool) s d (c : bytes) m :
  let jpeg := os_path_join out (jpg_filename self) in
  let run :=
    generate_derivatives_from_tiff env self src out include_tiff save_xmp rp
      s in
  mkdtemp_name (tmpdir env) "image_ingest_" (tmp_names env) (fs s) = Some d →
  read (fs s) src = Some c →
  fs s !! out = Some m →
  trace run.2 !! (length (trace s) + 1) = Some (EConvertToJpg src jpeg) ∧
  match to_jpg env c with
  | inl e => run.1 = inl e ∧ fs run.2 !! out = Some m
  | inr cj => is_Some (read (fs run.2) jpeg)
  end.
Proof.
  intros jpeg run Hd Hc Hout. subst run.
  rewrite tiff_with_scratch, (with_scratch_run _ _ _ _ Hd). simpl.
  destruct (mkdtemp_name_fresh _ _ _ _ _ Hd) as [Hfresh _].
  assert (d ≠ out) as Hdo by (intros ->; congruence).
  set (s0 := emit _ _).
  assert (read (fs s0) src = Some c) as Hc0.
  { simpl. by rewrite read_mkdir. }
  assert (fs s0 !! out = Some m) as Hout0.
  { simpl. by rewrite lookup_insert_ne. }
  destruct (tiff_body env self src out include_tiff save_xmp rp d s0)
    as [r sb] eqn:Hb.
  simpl. unfold tiff_body, convert_to_jpg in Hb. fold jpeg in Hb.
  apply bind_inv in Hb as [(e & Hconv & ->)|([] & s1 & Hconv & Hrest)].
  - rewrite (run_tool_read _ _ _ _ _ _ c Hc0) in Hconv.
    destruct (to_jpg env c) as [e'|cj].
    + injection Hconv as <- <-. simpl. split.
      * rewrite <- !app_assoc. rewrite lookup_app_r by lia.
        by replace (length (trace s) + 1 - length (trace s)) with 1 by lia.
      * split; [done|]. rewrite rmtree_fs_other by done.
        by rewrite lookup_insert_ne.
    + destruct (write (fs s0) jpeg cj) as [f1|] eqn:Hw; [done|].
      unfold write in Hw. simpl in Hw, Hout0. by rewrite Hout0 in Hw.
  - rewrite (run_tool_read _ _ _ _ _ _ c Hc0) in Hconv.
    destruct (to_jpg env c) as [e'|cj]; [done|].
    destruct (write (fs s0) jpeg cj) as [f1|] eqn:Hw; [|done].
    injection Hconv as <-.
    assert (∃ tr, step (written self out (scratch_tiff env d ".tiff")) tr
                    (set_fs f1 (emit (EConvertToJpg src jpeg) s0)) sb)
      as (tr & [[_ _ Hkeeps] _ Htr]).
    { unfold repage_image in Hrest.
      match type of Hrest with ?k _ = _ =>
        assert (∃ L, traced (written self out (scratch_tiff env d ".tiff"))
                       L k) as [L HL]
      end.
      { destruct save_xmp, include_tiff, rp; eexists; traced_auto. }
      destruct (HL _ _ _ Hrest) as (tr & _ & Hstep & _). by exists tr. }
    simpl in Htr. split.
    + rewrite Htr. rewrite <- !app_assoc.
      rewrite lookup_app_r by lia.
      by replace (length (trace s) + 1 - length (trace s)) with 1 by lia.
    + rewrite read_rmtree_other by done. apply Hkeeps. simpl.
      rewrite (read_write _ _ _ _ Hw). eauto.
Qed.

(** ** C9: a failed XMP extraction *)

(** C9, as the code has it.  Neither entry point catches what [extract_xmp]
    raises: with [save_xmp], when the extraction raises [e] the run raises
    [e], and after the failed extraction it makes no call but the removal of
    the scratch folder, so no JP2 derivative is generated. *)
Theorem xmp_failure_aborts_run env self src out
    (strip include_tiff rp : bool) s d e :
  let jpeg := os_path_join out (jpg_filename self) in
  let xmp := os_path_join out (xmp_filename self) in
  let s0 := emit (EMkdtemp d) (set_fs (<[d := ∅]> (fs s)) s) in
  let after sb := set_fs (rmtree_fs env d (fs sb)) (emit (ERmtree d) sb) in
  mkdtemp_name (tmpdir env) "image_ingest_" (tmp_names env) (fs s) = Some d →
  (∀ s1 s2,
     shutil_copy src jpeg s0 = (inr tt, s1) →
     extract_xmp env self jpeg xmp s1 = (inl e, s2) →
     generate_derivatives_from_jpg env self src out strip true s
     = (inl e, after s2)) ∧
  (∀ s1 s2,
     (convert_to_jpg env src jpeg ;;
      log_debug ("jpeg file " +:+ path_str jpeg +:+ " generated")) s0
     = (inr tt, s1) →
     extract_xmp env self src xmp s1 = (inl e, s2) →
     generate_derivatives_from_tiff env self src out include_tiff true rp s
     = (inl e, after s2)).
Proof.
  intros jpeg xmp s0 after Hd. split; intros s1 s2 H1 H2.
  - rewrite jpg_with_scratch, (with_scratch_run _ _ _ _ Hd). fold s0.
    assert (jpg_body env self src out strip true d s0 = (inl e, s2)) as ->;
      [|done].
    unfold jpg_body. fold jpeg xmp.
    erewrite bind_inr by exact H1.
    erewrite bind_inl; [done|]. by erewrite bind_inl.
  - rewrite tiff_with_scratch, (with_scratch_run _ _ _ _ Hd). fold s0.
    assert (tiff_body env self src out include_tiff true rp d s0
            = (inl e, s2)) as ->; [|done].
    unfold tiff_body. fold jpeg xmp.
    apply bind_inv in H1 as [(? & _ & [=])|([] & s1' & Hconv & Hlog)].
    erewrite bind_inr by exact Hconv.
    erewrite bind_inr by exact Hlog.
    erewrite bind_inl; [done|]. by erewrite bind_inl.
Qed.

(** ** The claims on concrete runs *)

(** A lossless JP2 with another pixel checksum than the source: the run
    returns its four files all the same, for [Transform] compares no
    checksums. *)
Lemma checksum_mismatch_not_detected :
  let run := generate_derivatives_from_tiff env_altered default_transform
               master_tif "out" true false false (state0 fs0) in
  read fs0 master_tif = Some (b "TIFF:pixels") ∧
  read (fs run.2) ("out", "full_lossless.jp2") = Some (b "JP2:other-pixels") ∧
  pixel_checksum env_altered (b "TIFF:pixels")
  ≠ pixel_checksum env_altered (b "JP2:other-pixels") ∧
  run.1 = inr [("out", "full.jpg"); ("out", "full.tiff");
               ("out", "full_lossless.jp2"); ("out", "full_lossy.jp2")].
Proof. cbv zeta. repeat split; by vm_compute. Qed.

Lemma jp2_outcome_by_validation_only_witness :
  (generate_jp2_derivatives_from_tiff env_altered default_transform scratch0
     "out" (state0 fs_scratch)).1
  = inr [("out", "full_lossless.jp2"); ("out", "full_lossy.jp2")].
Proof.
  rewrite (jp2_outcome_by_validation_only env_altered default_transform
             scratch0 "out" (state0 fs_scratch) (b "TIFF:pixels")).
  - by vm_compute.
  - by vm_compute.
  - exists ∅. by vm_compute.
  - discriminate.
Defined.

(** C2 fails as stated: the source of this run has no ICC profile and is
    neither greyscale nor bilevel, the options are the defaults, and the run
    returns its four files, with the JPEG derivative in the output folder. *)
Lemma no_icc_profile_run_succeeds :
  let run := generate_derivatives_from_tiff env0 default_transform
               master_tif "out" true false false (state0 fs0) in
  read fs0 master_tif = Some (b "TIFF:pixels") ∧
  has_icc_profile env0 (b "TIFF:pixels") = false ∧
  is_greyscale env0 (b "TIFF:pixels") = false ∧
  is_bilevel env0 (b "TIFF:pixels") = false ∧
  run.1 = inr [("out", "full.jpg"); ("out", "full.tiff");
               ("out", "full_lossless.jp2"); ("out", "full_lossy.jp2")] ∧
  read (fs run.2) ("out", "full.jpg") = Some (b "JPG:pixels").
Proof. cbv zeta. repeat split; by vm_compute. Qed.

Lemma tiff_run_starts_with_jpeg_conversion_witness :
  is_Some (read (fs (generate_derivatives_from_tiff env0 default_transform
                       master_tif "out" true false false (state0 fs0)).2)
             ("out", "full.jpg")).
Proof.
  apply (tiff_run_starts_with_jpeg_conversion env0 default_transform
           master_tif "out" true false false (state0 fs0) tmp0
           (b "TIFF:pixels") ∅); by vm_compute.
Defined.

Lemma jp2_validated_after_generation_witness :
  (generate_jp2_derivatives_from_tiff env_invalid default_transform scratch0
     "out" (state0 fs_scratch)).1 = inl ValidationError.
Proof.
  destruct (jp2_validated_after_generation env_invalid default_transform
              scratch0 "out" (state0 fs_scratch) (b "TIFF:pixels"))
    as (_ & Hlossless & _).
  - by vm_compute.
  - exists ∅. by vm_compute.
  - discriminate.
  - by apply (Hlossless (b "JP2:pixels") eq_refl).
Defined.

(** C5 fails as stated: the source of this run sits at the lossless path of
    the output folder; the run returns, and the source then holds the
    lossless JP2 instead of its own bytes. *)
Lemma source_at_derivative_path_overwritten :
  let src := ("/out", "full_lossless.jp2") in
  let run := generate_derivatives_from_tiff env0 default_transform src "/out"
               true false false (state0 fs_alias) in
  read fs_alias src = Some (b "TIFF:pixels") ∧
  run.1 = inr [("/out", "full.jpg"); ("/out", "full.tiff");
               ("/out", "full_lossless.jp2"); ("/out", "full_lossy.jp2")] ∧
  read (fs run.2) src = Some (b "JP2:pixels") ∧
  read (fs run.2) src ≠ read fs_alias src.
Proof. cbv zeta. repeat split; by vm_compute. Qed.

Lemma source_file_untouched_witness :
  source_untouched default_transform ("/in", "master.tif") "/out"
    (state0 fs_abs)
    (generate_derivatives_from_tiff env0 default_transform
       ("/in", "master.tif") "/out" true false true (state0 fs_abs)).2.
Proof.
  apply (source_file_untouched env0 default_transform ("/in", "master.tif")
           "/out" false true false true (state0 fs_abs)).
  - split; [|by vm_compute]. apply (bool_decide_unpack _). by vm_compute.
  - exists (b "TIFF:pixels"). by vm_compute.
Defined.

Lemma profile_applied_after_lossless_witness :
  ∃ tr,
    trace (generate_jp2_derivatives_from_tiff env0 default_transform scratch0
             "out" (state0 fs_scratch)).2 = [] ++ tr ∧
    tr `prefix_of` jp2_calls default_transform scratch0 "out".
Proof.
  destruct (profile_applied_after_lossless env0 default_transform scratch0
              "out" (state0 fs_scratch) (b "TIFF:pixels"))
    as (tr & Htr & Hpre & _).
  - by vm_compute.
  - exists ∅. by vm_compute.
  - discriminate.
  - by exists tr.
Defined.

(** C7 fails as stated: this run on a JPEG with [save_xmp] leaves four files
    in the output folder, not three; the fourth is the lossy JP2. *)
Lemma jpg_run_not_three_files :
  let run := generate_derivatives_from_jpg env0 default_transform
               master_jpg "out" false true (state0 fs0) in
  run.1 = inr [("out", "full.jpg"); ("out", "xmp.xml");
               ("out", "full_lossless.jp2"); ("out", "full_lossy.jp2")] ∧
  size (listdir (fs run.2) "out") = 4 ∧
  size (listdir (fs run.2) "out") ≠ 3 ∧
  is_Some (read (fs run.2) ("out", "full_lossy.jp2")).
Proof.
  cbv zeta. repeat split; try by vm_compute.
  eexists. by vm_compute.
Qed.

Lemma jpg_run_four_files_witness :
  size (listdir (fs (generate_derivatives_from_jpg env0 default_transform
                       master_jpg "out" false true (state0 fs0)).2) "out")
  = 4.
Proof.
  eapply (jpg_run_four_files env0 default_transform master_jpg "out" false
            (state0 fs0) (b "JPG:pixels") (b "<x:xmpmeta/>")
            (b "<x:xmpmeta/>") (b "TIFF:pixels")); try by vm_compute.
  - apply (bool_decide_unpack _). by vm_compute.
  - exists tmp0. by vm_compute.
Defined.

Lemma tiff_run_four_files_witness :
  size (listdir (fs (generate_derivatives_from_tiff env0 default_transform
                       master_tif "out" true false false (state0 fs0)).2)
          "out") = 4 ∧
  read (fs (generate_derivatives_from_tiff env0 default_transform
              master_tif "out" true false false (state0 fs0)).2)
    ("out", "full.tiff") = Some (b "TIFF:pixels").
Proof.
  split;
    eapply (tiff_run_four_files env0 default_transform master_tif "out" false
              (state0 fs0) (b "TIFF:pixels") (b "JPG:pixels")
              (b "TIFF:pixels")).
  all: first [ by vm_compute
             | apply (bool_decide_unpack _); by vm_compute
             | exists tmp0; by vm_compute ].
Defined.

(** C9 fails as stated: libxmp cannot read the packet of this JPEG; the run
    raises the [XMPError] and no JP2 derivative is generated. *)
Lemma xmp_failure_is_fatal :
  let run := generate_derivatives_from_jpg env_no_xmp default_transform
               master_jpg "out" false true (state0 fs0) in
  run.1 = inl XMPError ∧
  read (fs run.2) ("out", "full_lossless.jp2") = None ∧
  read (fs run.2) ("out", "full_lossy.jp2") = None.
Proof. cbv zeta. repeat split; by vm_compute. Qed.

Lemma xmp_failure_aborts_run_witness :
  (generate_derivatives_from_jpg env_no_xmp default_transform master_jpg
     "out" false true (state0 fs0)).1 = inl XMPError.
Proof.
  destruct (xmp_failure_aborts_run env_no_xmp default_transform master_jpg
              "out" false true false (state0 fs0) tmp0 XMPError)
    as [Hjpg _].
  - by vm_compute.
  - erewrite Hjpg; [done| |]; vm_compute; reflexivity.
Defined.

Lemma extract_xmp_appends_and_closes_witness :
  (∃ added,
     read (fs (extract_xmp env0 default_transform master_jpg
                 ("out", "xmp.xml") (state0 fs_sidecar)).2)
       ("out", "xmp.xml") = Some (b "<old/>" ++ added) ∧
     ((extract_xmp env0 default_transform master_jpg ("out", "xmp.xml")
         (state0 fs_sidecar)).1 = inr tt →
      ∃ image packet,
        read (fs (state0 fs_sidecar)) master_jpg = Some image ∧
        xmp_packet env0 image = inr (Some packet) ∧
        xmp_serialize env0 packet = inr added)) ∧
  handles (extract_xmp env0 default_transform master_jpg ("out", "xmp.xml")
             (state0 fs_sidecar)).2 = handles (state0 fs_sidecar).
Proof.
  apply (extract_xmp_appends_and_closes env0 default_transform master_jpg
           ("out", "xmp.xml") (state0 fs_sidecar) (b "<old/>")).
  by vm_compute.
Defined.

(** A run in which no file of the scratch folder can be deleted: the removal
    fails, the run still returns its files, and the folder stays behind. *)
Example removal_failure_not_raised :
  let run := generate_derivatives_from_tiff env_stuck default_transform
               master_tif "out" false false false (state0 fs0) in
  run.1 = inr [("out", "full.jpg"); ("out", "full_lossless.jp2");
               ("out", "full_lossy.jp2")] ∧
  elements (listdir (fs run.2) tmp0) = ["0f8fad5b.tiff"] ∧
  last (trace run.2) = Some (ERmtree tmp0).
Proof. cbv zeta. repeat split; by vm_compute. Qed.

(** The sidecar of an earlier run is kept and the new packet follows it. *)
Example sidecar_appended :
  read (fs (extract_xmp env0 default_transform master_jpg ("out", "xmp.xml")
              (state0 fs_sidecar)).2) ("out", "xmp.xml")
  = Some (b "<old/><x:xmpmeta/>").
Proof. by vm_compute. Qed.

(** * Further properties of the pipeline *)

(** ** Whole runs: calls, handles, other files *)

Lemma with_scratch_calls {A} env (body : string → M A) W L s :
  (∀ d, traced (W d) (L d) (body d)) →
  run_calls L s (with_scratch env body s).1 (with_scratch env body s).2.
Proof.
  intros Hbody. destruct (with_scratch env body s) as [r s'] eqn:Hrun.
  apply with_scratch_inv in Hrun
    as [(-> & -> & _)|(d & sb & _ & Hd & Hfresh & Hb & ->)]; [by left|].
  destruct (Hbody d _ _ _ Hb) as (tr & Hpre & [_ _ Htr] & Hfull).
  right. exists d, tr. simpl. split; [done|]. split; [|done].
  rewrite Htr. simpl. by rewrite <- !app_assoc.
Qed.

Lemma agree_refl s : agree s s.
Proof. done. Qed.

Ltac respects_prim :=
  let H := fresh in
  intros [f1 h1 t1 l1] [f2 h2 t2 l2] (H & ? & ?); simpl in *; subst;
  simpl; repeat case_match; by simplify_eq.

Lemma respects_ret {A} (x : A) : respects (ret x).
Proof. by intros s1 s2 H. Qed.

Lemma respects_raise {A} e : respects (@raise A e).
Proof. by intros s1 s2 H. Qed.

Lemma respects_bind {A B} (m : M A) (k : A → M B) :
  respects m → (∀ x, respects (k x)) → respects (bind m k).
Proof.
  intros Hm Hk s1 s2 H. destruct (Hm s1 s2 H) as [Hr Hs]. unfold bind.
  destruct (m s1) as [[e|x] s1'], (m s2) as [[e'|x'] s2']; simpl in *;
    simplify_eq; [done|]. by apply Hk.
Qed.

Lemma respects_try_finally {A} (m : M A) (fin : M unit) :
  respects m → respects fin → respects (try_finally m fin).
Proof.
  intros Hm Hf s1 s2 H. destruct (Hm s1 s2 H) as [Hr Hs]. unfold try_finally.
  destruct (m s1) as [r1 s1'], (m s2) as [r2 s2']; simpl in *. subst.
  destruct (Hf s1' s2' Hs) as [Hr' Hs'].
  destruct (fin s1') as [[e|[]] s1''], (fin s2') as [[e'|[]] s2''];
    simpl in *; by simplify_eq.
Qed.

Lemma respects_log_debug msg : respects (log_debug msg).
Proof. by intros [f1 h1 t1 l1] [f2 h2 t2 l2] H. Qed.

Lemma respects_emit e : respects (modify (emit e)).
Proof.
  intros [f1 h1 t1 l1] [f2 h2 t2 l2] (? & ? & ?). simpl in *. by subst.
Qed.

Lemma respects_close_handle h : respects (close_handle h).
Proof.
  intros [f1 h1 t1 l1] [f2 h2 t2 l2] (? & ? & ?). simpl in *. by subst.
Qed.

Lemma respects_run_tool env ev f src dst :
  respects (run_tool env ev f src dst).
Proof. unfold run_tool. respects_prim. Qed.

Lemma respects_shutil_copy src dst : respects (shutil_copy src dst).
Proof. unfold shutil_copy. respects_prim. Qed.

Lemma respects_validate_jp2 env p : respects (validate_jp2 env p).
Proof. unfold validate_jp2. respects_prim. Qed.

Lemma respects_XMPFiles env p : respects (XMPFiles env p).
Proof. unfold XMPFiles. respects_prim. Qed.

Lemma respects_get_xmp env c : respects (get_xmp env c).
Proof. by intros s1 s2 H. Qed.

Lemma respects_serialize env x : respects (serialize_to_unicode env x).
Proof. destruct x; by intros s1 s2 H. Qed.

Lemma respects_io_open_append p : respects (io_open_append p).
Proof. unfold io_open_append. respects_prim. Qed.

Lemma respects_file_write env p data : respects (file_write env p data).
Proof. unfold file_write. respects_prim. Qed.

Lemma respects_extract_xmp env self img xmp :
  respects (extract_xmp env self img xmp).
Proof.
  unfold extract_xmp, with_open_append.
  repeat first
    [ apply respects_bind; [|intros ?]
    | apply respects_try_finally
    | apply respects_emit | apply respects_XMPFiles | apply respects_get_xmp
    | apply respects_io_open_append | apply respects_serialize
    | apply respects_file_write | apply respects_close_handle
    | apply respects_log_debug ].
Qed.

Lemma respects_perform env self e : respects (perform env self e).
Proof.
  destruct e; simpl;
    first [ apply respects_ret | apply respects_shutil_copy
          | apply respects_run_tool | apply respects_validate_jp2
          | apply respects_extract_xmp ].
Qed.

Lemma follows_ret {A} (x : A) : follows (ret x) (ret tt).
Proof. intros s1 s2 H. split; [done|]. by intros e. Qed.

(** A call of the block is the next call of the list. *)
Lemma follows_call {A B} (p : M B) (k : B → M A) (m' : M unit) :
  respects p → (∀ x, follows (k x) m') →
  follows (bind p k) (bind p (λ _, m')).
Proof.
  intros Hp Hk s1 s2 H. destruct (Hp s1 s2 H) as [Hr Hs]. unfold bind.
  destruct (p s1) as [[e|x] s1'], (p s2) as [[e'|x'] s2']; simpl in *;
    simplify_eq.
  - split; [done|]. intros e. split; by intros [= <-].
  - by apply Hk.
Qed.

(** A debug message is no call. *)
Lemma follows_log {A} msg (k : unit → M A) (m' : M unit) :
  follows (k tt) m' → follows (bind (log_debug msg) k) m'.
Proof.
  intros Hk s1 s2 H. unfold bind, log_debug, modify. simpl.
  apply Hk. by destruct s1, s2.
Qed.

Lemma follows_ret_bind {A B} (x : B) (k : B → M A) (m' : M unit) :
  follows (k x) m' → follows (bind (ret x) k) m'.
Proof. intros Hk s1 s2 H. by apply Hk. Qed.

(** A call whose result is put into the list of generated files. *)
Lemma follows_call_ret {A B C} (p : M C) (x : B) (k : B → M A)
    (m' : M unit) :
  respects p → follows (k x) m' →
  follows (bind (bind p (λ _, ret x)) k) (bind p (λ _, m')).
Proof.
  intros Hp Hk s1 s2 H. destruct (Hp s1 s2 H) as [Hr Hs]. unfold bind.
  destruct (p s1) as [[e|y] s1'], (p s2) as [[e'|y'] s2']; simpl in *;
    simplify_eq.
  - split; [done|]. intros e. split; by intros [= <-].
  - by apply Hk.
Qed.

Lemma follows_bind_ret {A B} (m : M A) (f : A → B) (m' : M unit) :
  follows m m' → follows (bind m (λ x, ret (f x))) m'.
Proof.
  intros Hm s1 s2 H. destruct (Hm s1 s2 H) as [Hs Hr]. unfold bind.
  destruct (m s1) as [[e|x] s1']; simpl in *; (split; [done|]).
  - intros e'. rewrite <- Hr. split; by intros [= <-].
  - intros e. split; [done|]. intros He. by apply Hr in He.
Qed.

Lemma follows_jp2 env self scratch out :
  follows (generate_jp2_derivatives_from_tiff env self scratch out)
    (perform_all env self (jp2_calls self scratch out)).
Proof.
  unfold generate_jp2_derivatives_from_tiff, jp2_calls.
  cbn [perform_all perform].
  repeat first
    [ apply follows_ret
    | apply follows_log
    | apply follows_call;
      [first [apply respects_run_tool | apply respects_validate_jp2]
      |intros _] ].
Qed.

Lemma follows_jpg_body env self src out (strip save_xmp : bool) d :
  follows (jpg_body env self src out strip save_xmp d)
    (perform_all env self (jpg_calls env self src out strip save_xmp d)).
Proof.
  unfold jpg_body, jpg_calls. destruct save_xmp; cbn [perform_all perform app].
  - apply follows_call; [apply respects_shutil_copy|intros _].
    apply follows_call_ret; [apply respects_extract_xmp|].
    apply follows_call; [apply respects_run_tool|intros _].
    apply follows_bind_ret, follows_jp2.
  - apply follows_call; [apply respects_shutil_copy|intros _].
    apply follows_ret_bind.
    apply follows_call; [apply respects_run_tool|intros _].
    apply follows_bind_ret, follows_jp2.
Qed.

Lemma follows_tiff_body env self src out (include_tiff save_xmp rp : bool) d :
  follows (tiff_body env self src out include_tiff save_xmp rp d)
    (perform_all env self
       (tiff_calls env self src out include_tiff save_xmp rp d)).
Proof.
  unfold tiff_body, tiff_calls.
  destruct save_xmp, include_tiff, rp; cbn [perform_all perform app];
    (apply follows_call; [apply respects_run_tool|intros _]);
    apply follows_log;
    repeat first
      [ apply follows_call_ret;
        [first [apply respects_extract_xmp | apply respects_shutil_copy]|]
      | apply follows_ret_bind
      | apply follows_bind_ret, follows_jp2
      | apply follows_call;
        [first [apply respects_shutil_copy | apply respects_run_tool]
        |intros _] ].
Qed.

Lemma with_scratch_performs {A} env self (body : string → M A) L s :
  (∀ d, follows (body d) (perform_all env self (L d))) →
  run_performs env self L (with_scratch env body) s.
Proof.
  intros Hbody. unfold run_performs, mkdtemp.
  destruct (mkdtemp_name _ _ _ _) as [d|] eqn:Hd.
  - rewrite (with_scratch_run _ _ _ _ Hd). simpl.
    set (s0 := emit _ _).
    destruct (Hbody d s0 s0 (agree_refl s0)) as [(Hf & Hh & Ht) Hr].
    rewrite Hf, Hh, Ht. done.
  - unfold with_scratch, bind, mkdtemp. by rewrite Hd.
Qed.

(** X1.  The calls of a run, in order.  A run of either entry point makes no
    call at all when no scratch folder can be made.  Otherwise it makes the
    scratch folder, then the calls of its [try] block in their fixed order,
    each in the state the calls before it left, up to the first call that
    raises; it raises what that call raised, and returns when none did; and
    its last call removes the scratch folder.  The calls made are thus an
    initial part of the fixed list, and all of it when the run returns. *)
Theorem run_calls_in_order env self src out
    (strip include_tiff save_xmp rp : bool) s :
  let jpg_run := generate_derivatives_from_jpg env self src out strip save_xmp in
  let tiff_run :=
    generate_derivatives_from_tiff env self src out include_tiff save_xmp rp in
  run_performs env self (jpg_calls env self src out strip save_xmp)
    jpg_run s ∧
  run_performs env self
    (tiff_calls env self src out include_tiff save_xmp rp) tiff_run s ∧
  run_calls (jpg_calls env self src out strip save_xmp) s
    (jpg_run s).1 (jpg_run s).2 ∧
  run_calls (tiff_calls env self src out include_tiff save_xmp rp) s
    (tiff_run s).1 (tiff_run s).2.
Proof.
  intros jpg_run tiff_run. subst jpg_run tiff_run.
  rewrite jpg_with_scratch, tiff_with_scratch. repeat split.
  - apply with_scratch_performs. intros d. apply follows_jpg_body.
  - apply with_scratch_performs. intros d. apply follows_tiff_body.
  - eapply with_scratch_calls. intros d. apply traced_jpg_body.
  - eapply with_scratch_calls. intros d. apply traced_tiff_body.
Qed.

Lemma with_scratch_keeps {A} env (body : string → M A) W L s :
  (∀ d, traced (W d) (L d) (body d)) →
  handles (with_scratch env body s).2 = handles s ∧
  (∀ p, is_Some (read (fs s) p) →
        is_Some (read (fs (with_scratch env body s).2) p)) ∧
  (∀ d, is_Some (fs s !! d) → is_Some (fs (with_scratch env body s).2 !! d)).
Proof.
  intros Hbody. destruct (with_scratch env body s) as [r s'] eqn:Hrun.
  apply with_scratch_inv in Hrun
    as [(-> & -> & _)|(d & sb & _ & Hd & Hfresh & Hb & ->)]; [done|].
  destruct (Hbody d _ _ _ Hb) as (tr & _ & [[Hdirs _ Hkeeps] Hh _] & _).
  simpl in *. split; [done|]. split.
  - intros p Hp.
    assert (p.1 ≠ d) as Hne by (by eapply fresh_dir_elsewhere).
    rewrite read_rmtree_other by done. apply Hkeeps. by rewrite read_mkdir.
  - intros d' Hd'.
    assert (d' ≠ d) as Hne.
    { intros ->. rewrite Hfresh in Hd'. by destruct Hd'. }
    rewrite rmtree_fs_other by done. apply Hdirs.
    by rewrite lookup_insert_ne.
Qed.

(** X2.  No handle leaks.  However a run of either entry point ends, the handles
    open after it are the handles that were open before it. *)
Theorem entry_points_close_handles env self src out
    (strip include_tiff save_xmp rp : bool) s :
  handles (generate_derivatives_from_jpg env self src out strip save_xmp s).2
  = handles s ∧
  handles (generate_derivatives_from_tiff env self src out include_tiff
             save_xmp rp s).2
  = handles s.
Proof.
  split.
  - rewrite jpg_with_scratch.
    eapply (with_scratch_keeps env _ _ _ s). intros d. apply traced_jpg_body.
  - rewrite tiff_with_scratch.
    eapply (with_scratch_keeps env _ _ _ s). intros d. apply traced_tiff_body.
Qed.

(** X3.  Other files are left alone.  However a run of either entry point ends, a
    file that existed before the run still exists after it, with the same
    bytes unless it is at one of the five derivative paths of the output
    folder; and a folder that existed before the run still exists. *)
Theorem entry_points_keep_other_files env self src out
    (strip include_tiff save_xmp rp : bool) s p :
  is_Some (read (fs s) p) →
  let jpg_run :=
    generate_derivatives_from_jpg env self src out strip save_xmp s in
  let tiff_run :=
    generate_derivatives_from_tiff env self src out include_tiff save_xmp rp
      s in
  is_Some (read (fs jpg_run.2) p) ∧
  is_Some (read (fs tiff_run.2) p) ∧
  is_Some (fs jpg_run.2 !! p.1) ∧
  is_Some (fs tiff_run.2 !! p.1) ∧
  (p ∉ derivative_paths self out →
   read (fs jpg_run.2) p = read (fs s) p ∧
   read (fs tiff_run.2) p = read (fs s) p).
Proof.
  intros Hp jpg_run tiff_run.
  assert (is_Some (fs s !! p.1)) as Hd by (by apply read_dir).
  destruct (with_scratch_keeps env
              (jpg_body env self src out strip save_xmp) _ _ s
              (λ d, traced_jpg_body env self src out strip save_xmp d))
    as (_ & Hkj & Hdj).
  destruct (with_scratch_keeps env
              (tiff_body env self src out include_tiff save_xmp rp) _ _ s
              (λ d, traced_tiff_body env self src out include_tiff save_xmp
                      rp d))
    as (_ & Hkt & Hdt).
  do 4 (split; [by eauto|]).
  intros Hnot. split.
  - destruct (jpg_run) as [r s'] eqn:Hrun. subst jpg_run.
    rewrite jpg_with_scratch in Hrun.
    eapply (with_scratch_frame env self out
              (λ d, scratch_tiff env d ".tif")) in Hrun
      as (_ & Hframe & _); [by apply Hframe|done|].
    intros d. apply traced_jpg_body.
  - destruct (tiff_run) as [r s'] eqn:Hrun. subst tiff_run.
    rewrite tiff_with_scratch in Hrun.
    eapply (with_scratch_frame env self out
              (λ d, scratch_tiff env d ".tiff")) in Hrun
      as (_ & Hframe & _); [by apply Hframe|done|].
    intros d. apply traced_tiff_body.
Qed.

(** ** What a successful run returns *)

Lemma tool_write_grows (f : FS) p (c : bytes) f' :
  write f p c = Some f' → grows f f' ∧ is_Some (read f' p).
Proof.
  intros Hw. split.
  - eapply fs_step_weaken; [|by eapply fs_step_write]. done.
  - rewrite (read_write _ _ _ _ Hw). eauto.
Qed.

Lemma run_tool_grows env ev f src dst s s' :
  run_tool env ev f src dst s = (inr tt, s') →
  grows (fs s) (fs s') ∧ is_Some (read (fs s') dst).
Proof.
  unfold run_tool. destruct (read (fs s) src) as [c|]; [|done].
  destruct (f c) as [|c']; [done|].
  destruct (write (fs s) dst c') as [f'|] eqn:Hw; [|done].
  intros [= <-]. simpl. by eapply tool_write_grows.
Qed.

Lemma shutil_copy_grows src dst s s' :
  shutil_copy src dst s = (inr tt, s') →
  grows (fs s) (fs s') ∧ is_Some (read (fs s') dst).
Proof.
  unfold shutil_copy. destruct (read (fs s) src) as [c|]; [|done].
  destruct (decide (src = dst)); [done|].
  destruct (write (fs s) dst c) as [f'|] eqn:Hw; [|done].
  intros [= <-]. simpl. by eapply tool_write_grows.
Qed.

Lemma validate_jp2_fs env p s r s' :
  validate_jp2 env p s = (r, s') → fs s' = fs s.
Proof.
  unfold validate_jp2. destruct (read (fs s) p) as [c|];
    [destruct (jp2_valid env c)|]; by intros [= <- <-].
Qed.

Lemma append_block_grows env p x s s' :
  with_open_append p
    (data <- serialize_to_unicode env x ; file_write env p data) s
  = (inr tt, s') →
  is_Some (read (fs s') p).
Proof.
  unfold with_open_append. intros Hb.
  apply bind_inv in Hb as [(e & _ & [=])|([] & s1 & Ho & Hb)].
  apply io_open_append_inv in Ho as [[[=] _]|(_ & _ & _ & _ & Hr)].
  rewrite try_finally_close in Hb.
  match type of Hb with (fst ?t, _) = _ =>
    destruct t as [rb sb] eqn:Hbody end.
  simpl in Hb. injection Hb as -> <-. simpl.
  apply bind_inv in Hbody as [(e & _ & [=])|(data & s2 & Hser & Hw)].
  assert (s2 = s1) as ->.
  { destruct x; [by injection Hser|done]. }
  apply file_write_inv in Hw as (_ & _ & _ & Hadd).
  destruct (Hadd _ Hr) as (added & -> & _). eauto.
Qed.

Lemma extract_xmp_grows env self img xmp s s' :
  extract_xmp env self img xmp s = (inr tt, s') →
  grows (fs s) (fs s') ∧ is_Some (read (fs s') xmp).
Proof.
  intros Hrun. split.
  { destruct (extract_xmp_inv _ _ _ _ _ _ _ Hrun) as [[Hfs _ _] _].
    eapply fs_step_weaken; [|exact Hfs]. done. }
  revert Hrun. unfold extract_xmp. intros Hb.
  apply bind_inv in Hb as [(e & [=] & _)|([] & s0 & [= <-] & Hb)].
  apply bind_inv in Hb as [(e & _ & [=])|(image & s1 & _ & Hb)].
  rewrite try_finally_close in Hb.
  match type of Hb with (fst ?t, _) = _ =>
    destruct t as [rb sb] eqn:Hbody end.
  simpl in Hb. injection Hb as -> <-. simpl.
  apply bind_inv in Hbody as [(e & _ & [=])|(x & s2 & _ & Hbody)].
  apply bind_inv in Hbody as [(e & _ & [=])|([] & s3 & Ha & Hl)].
  apply append_block_grows in Ha.
  unfold log_debug, modify in Hl. by injection Hl as <-.
Qed.

(** A successful JP2 stage returns its two paths, both files exist, and no
    file or folder went. *)
Lemma jp2_returns env self scratch out s files s' :
  generate_jp2_derivatives_from_tiff env self scratch out s = (inr files, s') →
  files = [os_path_join out (lossless_jp2_filename self);
           os_path_join out (lossy_jp2_filename self)] ∧
  grows (fs s) (fs s') ∧
  is_Some (read (fs s') (os_path_join out (lossless_jp2_filename self))) ∧
  is_Some (read (fs s') (os_path_join out (lossy_jp2_filename self))).
Proof.
  unfold generate_jp2_derivatives_from_tiff, convert_to_jpeg2000,
    convert_tiff_colour_profile, convert_colour_to_jpeg2000.
  intros H.
  apply bind_inv in H as [(? & _ & [=])|([] & s1 & H1 & H)].
  apply bind_inv in H as [(? & _ & [=])|([] & s2 & H2 & H)].
  apply bind_inv in H as [(? & _ & [=])|([] & s3 & H3 & H)].
  apply bind_inv in H as [(? & _ & [=])|([] & s4 & H4 & H)].
  apply bind_inv in H as [(? & _ & [=])|([] & s5 & H5 & H)].
  apply bind_inv in H as [(? & _ & [=])|([] & s6 & H6 & H)].
  apply bind_inv in H as [(? & _ & [=])|([] & s7 & H7 & H)].
  injection H as <- <-.
  apply run_tool_grows in H1 as [G1 E1].
  apply validate_jp2_fs in H2.
  unfold log_debug, modify in H3. injection H3 as <-.
  apply run_tool_grows in H4 as [G4 _].
  apply run_tool_grows in H5 as [G5 E5].
  apply validate_jp2_fs in H6.
  unfold log_debug, modify in H7. injection H7 as <-.
  simpl in *. rewrite H2 in G4. rewrite H6.
  split; [done|]. split; [|split; [|done]].
  - eauto using fs_step_trans.
  - by apply (fs_keeps _ _ _ G5), (fs_keeps _ _ _ G4).
Qed.

Lemma xmp_block_returns env self img xmp (save_xmp : bool) (gf : list path)
    s gf' s' :
  (if save_xmp
   then extract_xmp env self img xmp ;; ret (gf ++ [xmp])
   else ret gf) s = (inr gf', s') →
  gf' = gf ++ (if save_xmp then [xmp] else []) ∧
  grows (fs s) (fs s') ∧
  (save_xmp = true → is_Some (read (fs s') xmp)).
Proof.
  destruct save_xmp; intros H.
  - apply bind_inv in H as [(? & _ & [=])|([] & s1 & H1 & H)].
    injection H as <- <-. apply extract_xmp_grows in H1 as [G E]. done.
  - injection H as <- <-. rewrite app_nil_r.
    split; [done|]. split; [apply fs_step_refl|done].
Qed.

Lemma copy_block_returns src dst (include_tiff : bool) (gf : list path)
    s gf' s' :
  (if include_tiff
   then shutil_copy src dst ;; ret (gf ++ [dst])
   else ret gf) s = (inr gf', s') →
  gf' = gf ++ (if include_tiff then [dst] else []) ∧
  grows (fs s) (fs s') ∧
  (include_tiff = true → is_Some (read (fs s') dst)).
Proof.
  destruct include_tiff; intros H.
  - apply bind_inv in H as [(? & _ & [=])|([] & s1 & H1 & H)].
    injection H as <- <-. apply shutil_copy_grows in H1 as [G E]. done.
  - injection H as <- <-. rewrite app_nil_r.
    split; [done|]. split; [apply fs_step_refl|done].
Qed.

Lemma jpg_body_returns env self src out (strip save_xmp : bool) d s files sb :
  jpg_body env self src out strip save_xmp d s = (inr files, sb) →
  files = jpg_files self out save_xmp ∧
  Forall (λ p, p.1 = out ∧ is_Some (read (fs sb) p)) files.
Proof.
  unfold jpg_body, convert_to_tiff. intros H.
  apply bind_inv in H as [(? & _ & [=])|([] & s1 & H1 & H)].
  apply bind_inv in H as [(? & _ & [=])|(gf & s2 & H2 & H)].
  apply bind_inv in H as [(? & _ & [=])|([] & s3 & H3 & H)].
  apply bind_inv in H as [(? & _ & [=])|(jp2 & s4 & H4 & H)].
  injection H as <- <-.
  apply shutil_copy_grows in H1 as [_ E1].
  apply xmp_block_returns in H2 as (-> & G2 & E2).
  apply run_tool_grows in H3 as [G3 _].
  apply jp2_returns in H4 as (-> & G4 & El & Ey).
  assert (∀ p, is_Some (read (fs s2) p) → is_Some (read (fs s4) p)) as K.
  { intros p Hp. by apply (fs_keeps _ _ _ G4), (fs_keeps _ _ _ G3). }
  unfold jpg_files. rewrite <- app_assoc. split; [done|].
  apply Forall_app. split; [|apply Forall_app; split].
  - apply Forall_singleton. split; [done|].
    by apply K, (fs_keeps _ _ _ G2).
  - destruct save_xmp; [|done]. apply Forall_singleton. auto.
  - by repeat constructor.
Qed.

Lemma tiff_body_returns env self src out (include_tiff save_xmp rp : bool) d
    s files sb :
  tiff_body env self src out include_tiff save_xmp rp d s = (inr files, sb) →
  files = tiff_files self out include_tiff save_xmp ∧
  Forall (λ p, p.1 = out ∧ is_Some (read (fs sb) p)) files.
Proof.
  unfold tiff_body, convert_to_jpg, repage_image. intros H.
  apply bind_inv in H as [(? & _ & [=])|([] & s1 & H1 & H)].
  apply bind_inv in H as [(? & _ & [=])|([] & s1' & Hl & H)].
  apply bind_inv in H as [(? & _ & [=])|(gf & s2 & H2 & H)].
  apply bind_inv in H as [(? & _ & [=])|(gf' & s3 & H3 & H)].
  apply bind_inv in H as [(? & _ & [=])|([] & s4 & H4 & H)].
  apply bind_inv in H as [(? & _ & [=])|([] & s5 & H5 & H)].
  apply bind_inv in H as [(? & _ & [=])|(jp2 & s6 & H6 & H)].
  injection H as <- <-.
  apply run_tool_grows in H1 as [_ E1].
  unfold log_debug, modify in Hl. injection Hl as <-.
  apply xmp_block_returns in H2 as (-> & G2 & E2).
  apply copy_block_returns in H3 as (-> & G3 & E3).
  apply shutil_copy_grows in H4 as [G4 _].
  assert (grows (fs s4) (fs s5)) as G5.
  { destruct rp; [by apply run_tool_grows in H5 as [? _]|].
    injection H5 as <-. apply fs_step_refl. }
  apply jp2_returns in H6 as (-> & G6 & El & Ey).
  assert (∀ p, is_Some (read (fs s3) p) → is_Some (read (fs s6) p)) as K.
  { intros p Hp.
    by apply (fs_keeps _ _ _ G6), (fs_keeps _ _ _ G5), (fs_keeps _ _ _ G4). }
  simpl in *. unfold tiff_files. rewrite <- !app_assoc. split; [done|].
  apply Forall_cons. split; [|apply Forall_app; split;
                               [|apply Forall_app; split]].
  - split; [done|].
    by apply K, (fs_keeps _ _ _ G3), (fs_keeps _ _ _ G2).
  - destruct save_xmp; [|done]. apply Forall_singleton.
    split; [done|]. apply K, (fs_keeps _ _ _ G3). auto.
  - destruct include_tiff; [|done]. apply Forall_singleton. auto.
  - by repeat constructor.
Qed.

Lemma with_scratch_returns {A} env (body : string → M A) out s x :
  is_Some (fs s !! out) →
  (with_scratch env body s).1 = inr x →
  ∃ d sb, d ≠ out ∧
    body d (emit (EMkdtemp d) (set_fs (<[d := ∅]> (fs s)) s)) = (inr x, sb) ∧
    fs (with_scratch env body s).2 = rmtree_fs env d (fs sb).
Proof.
  intros Hout Hx. destruct (with_scratch env body s) as [r s'] eqn:Hrun.
  simpl in Hx. subst r.
  apply with_scratch_inv in Hrun
    as [([=] & _)|(d & sb & _ & Hd & Hfresh & Hb & ->)].
  exists d, sb. split; [|done].
  intros ->. rewrite Hfresh in Hout. by destruct Hout.
Qed.

(** X4.  What the JPEG entry point returns.  When a run of
    [generate_derivatives_from_jpg] into an existing output folder returns,
    it returns the JPEG copy, the sidecar when [save_xmp] is set, the
    lossless JP2 and the lossy JP2, in this order, and each returned path is
    a file of the output folder after the run. *)
Theorem jpg_run_returns env self src out (strip save_xmp : bool) s files :
  let run := generate_derivatives_from_jpg env self src out strip save_xmp s in
  is_Some (fs s !! out) →
  run.1 = inr files →
  files = jpg_files self out save_xmp ∧
  Forall (λ p, p.1 = out ∧ is_Some (read (fs run.2) p)) files.
Proof.
  intros run Hout Hrun. subst run. rewrite jpg_with_scratch in *.
  destruct (with_scratch_returns env _ out s files Hout Hrun)
    as (d & sb & Hdo & Hb & ->).
  apply jpg_body_returns in Hb as [-> Hall]. split; [done|].
  eapply Forall_impl; [exact Hall|]. intros p [Hp He]. split; [done|].
  rewrite read_rmtree_other; [done|congruence].
Qed.

(** X5.  What the TIFF entry point returns.  When a run of
    [generate_derivatives_from_tiff] into an existing output folder returns,
    it returns the JPEG, the sidecar when [save_xmp] is set, the TIFF copy
    when [include_tiff] is set, the lossless JP2 and the lossy JP2, in this
    order, and each returned path is a file of the output folder after the
    run. *)
Theorem tiff_run_returns env self src out (include_tiff save_xmp rp : bool)
    s files :
  let run :=
    generate_derivatives_from_tiff env self src out include_tiff save_xmp rp
      s in
  is_Some (fs s !! out) →
  run.1 = inr files →
  files = tiff_files self out include_tiff save_xmp ∧
  Forall (λ p, p.1 = out ∧ is_Some (read (fs run.2) p)) files.
Proof.
  intros run Hout Hrun. subst run. rewrite tiff_with_scratch in *.
  destruct (with_scratch_returns env _ out s files Hout Hrun)
    as (d & sb & Hdo & Hb & ->).
  apply tiff_body_returns in Hb as [-> Hall]. split; [done|].
  eapply Forall_impl; [exact Hall|]. intros p [Hp He]. split; [done|].
  rewrite read_rmtree_other; [done|congruence].
Qed.

(** ** The bytes of the derivatives *)

Lemma jp2_outcome_ok env self out (c j1 c2 j2 : bytes) :
  to_jpeg2000 env true c = inr j1 → jp2_valid env j1 = true →
  tiff_colour_profile env (icc_profile self) c = inr c2 →
  colour_to_jpeg2000 env false c2 = inr j2 → jp2_valid env j2 = true →
  jp2_outcome env self out c
  = inr [os_path_join out (lossless_jp2_filename self);
         os_path_join out (lossy_jp2_filename self)].
Proof. intros H1 V1 H2 H3 V2. unfold jp2_outcome. by rewrite H1, V1, H2, H3, V2. Qed.

(** The [try] block of the TIFF entry point without [save_xmp], when every
    tool succeeds: what each derivative holds. *)
Lemma tiff_body_bytes env self src out (include_tiff rp : bool) d s
    (c cj c1 j1 c2 j2 : bytes) :
  let jpeg := os_path_join out (jpg_filename self) in
  let tiff := os_path_join out (tiff_filename self) in
  let lossless := os_path_join out (lossless_jp2_filename self) in
  let lossy := os_path_join out (lossy_jp2_filename self) in
  NoDup [jpg_filename self; tiff_filename self; lossless_jp2_filename self;
         lossy_jp2_filename self] →
  read (fs s) src = Some c → src.1 ≠ out → src.1 ≠ d → d ≠ out →
  is_Some (fs s !! out) → is_Some (fs s !! d) →
  to_jpg env c = inr cj →
  (if rp then repage env c else inr c) = inr c1 →
  to_jpeg2000 env true c1 = inr j1 → jp2_valid env j1 = true →
  tiff_colour_profile env (icc_profile self) c1 = inr c2 →
  colour_to_jpeg2000 env false c2 = inr j2 → jp2_valid env j2 = true →
  ∃ sb,
    tiff_body env self src out include_tiff false rp d s
    = (inr (tiff_files self out include_tiff false), sb) ∧
    read (fs sb) jpeg = Some cj ∧
    (include_tiff = true → read (fs sb) tiff = Some c) ∧
    read (fs sb) lossless = Some j1 ∧
    read (fs sb) lossy = Some j2 ∧
    read (fs sb) src = Some c.
Proof.
  intros jpeg tiff lossless lossy Hnd Hc Hso Hsd Hdo Hout Hd Hj Hrp
    H1 V1 H2 H3 V2.
  unfold tiff_body, convert_to_jpg, repage_image. fold jpeg tiff.
  set (scratch := os_path_join d (uuid4 env +:+ ".tiff")).
  apply NoDup_cons in Hnd as [Hn1 Hnd]. apply NoDup_cons in Hnd as [Hn2 Hnd].
  apply NoDup_cons in Hnd as [Hn3 _].
  assert (jpeg ≠ tiff) as Hjt.
  { intros [= E]. apply Hn1. rewrite E. apply list_elem_of_here. }
  assert (lossless ≠ lossy) as Hll.
  { intros [= E]. apply Hn3. rewrite E. apply list_elem_of_here. }
  (* full.jpg *)
  destruct (write_is_Some (fs s) jpeg cj Hout) as [f1 Hw1].
  erewrite bind_inr by (by eapply run_tool_ok).
  erewrite bind_inr by reflexivity.
  erewrite bind_inr by reflexivity.
  assert (read f1 src = Some c) as Hc1 by (by erewrite read_write_other_dir).
  assert (read f1 jpeg = Some cj) as Hj1 by (by eapply read_write).
  assert (is_Some (f1 !! out)) as Hout1 by (by eapply write_keeps_dir).
  assert (is_Some (f1 !! d)) as Hd1 by (by eapply write_keeps_dir).
  (* full.tiff *)
  lazymatch goal with |- ∃ sb, bind _ _ ?st = _ ∧ _ => set (s1 := st) end.
  assert (fs s1 = f1) as Hfs1 by done.
  assert (∃ s2,
            (if include_tiff
             then shutil_copy src tiff ;; ret ([jpeg] ++ [tiff])
             else ret [jpeg]) s1
            = (inr ([jpeg] ++ if include_tiff then [tiff] else []), s2) ∧
            read (fs s2) src = Some c ∧ read (fs s2) jpeg = Some cj ∧
            (include_tiff = true → read (fs s2) tiff = Some c) ∧
            is_Some (fs s2 !! out) ∧ is_Some (fs s2 !! d))
    as (s2 & Hrun2 & Hc2 & Hj2 & Ht2 & Hout2 & Hd2).
  { destruct include_tiff.
    - destruct (write_is_Some f1 tiff c Hout1) as [f2 Hw2].
      eexists. split.
      { erewrite bind_inr; [reflexivity|].
        eapply shutil_copy_ok; rewrite ?Hfs1; [done| |done]. by intros ->. }
      simpl. split; [by erewrite read_write_other_dir|].
      split; [by erewrite read_write_ne|].
      split; [intros _; by eapply read_write|].
      split; by eapply write_keeps_dir.
    - by eexists. }
  erewrite bind_inr by exact Hrun2.
  (* the scratch copy *)
  destruct (write_is_Some (fs s2) scratch c Hd2) as [f3 Hw3].
  erewrite bind_inr; cycle 1.
  { eapply shutil_copy_ok; [done| |done]. by intros ->. }
  assert (∀ q, q.1 ≠ d → read f3 q = read (fs s2) q) as Hfr3.
  { intros q Hq. by eapply read_write_other_dir. }
  (* repage *)
  set (s3 := set_fs f3 _).
  assert (∃ s4, (if rp
                 then run_tool env (ERepageImage scratch scratch) (repage env)
                        scratch scratch
                 else ret ()) s3 = (inr tt, s4) ∧
                read (fs s4) scratch = Some c1 ∧
                is_Some (fs s4 !! out) ∧
                ∀ q, q.1 ≠ d → read (fs s4) q = read f3 q)
    as (s4 & Hrun4 & Hs4 & Hout4 & Hfr4).
  { assert (is_Some (f3 !! out)) as Hout3 by (by eapply write_keeps_dir).
    assert (read f3 scratch = Some c) as Hs3 by (by eapply read_write).
    destruct rp.
    - assert (∃ f4, write f3 scratch c1 = Some f4) as [f4 Hw4].
      { apply write_is_Some. by eapply write_keeps_dir. }
      eexists. split; [by eapply run_tool_ok|]. simpl.
      split; [by eapply read_write|].
      split; [by eapply write_keeps_dir|].
      intros q Hq. by eapply read_write_other_dir.
    - injection Hrp as <-. by eexists. }
  erewrite bind_inr by exact Hrun4.
  (* the two JP2 files *)
  destruct (jp2_exec env self scratch out s4 c1)
    as (s5 & Hrun5 & _ & Hst5 & Hok5); [done|done|by intros [=]|].
  rewrite (jp2_outcome_ok env self out c1 j1 c2 j2) in Hrun5, Hok5 by done.
  erewrite bind_inr by exact Hrun5.
  eexists. split; [done|]. simpl.
  destruct (Hok5 _ eq_refl)
    as (j1' & c2' & j2' & E1 & E2 & E3 & Hy & Hl & _).
  assert (j1' = j1) as -> by congruence.
  assert (c2' = c2) as -> by congruence.
  assert (j2' = j2) as -> by congruence.
  assert (∀ p, p.1 ≠ d → ¬ jp2_written self out scratch p →
            read (fs s5) p = read (fs s2) p) as Hframe.
  { intros p Hp Hnw. rewrite (fs_frame _ _ _ Hst5), Hfr4, Hfr3 by done.
    done. }
  split; [|split; [|split; [by apply Hl|split; [done|]]]].
  - rewrite Hframe; [done|done|].
    unfold jp2_written, jpeg, os_path_join.
    intros [[= ? _]|[[= E]|[= E]]]; [done|apply Hn1; rewrite E..].
    + apply list_elem_of_further, list_elem_of_here.
    + do 2 apply list_elem_of_further. apply list_elem_of_here.
  - intros Hi. rewrite Hframe; [by apply Ht2|done|].
    unfold jp2_written, tiff, os_path_join.
    intros [[= ? _]|[[= E]|[= E]]]; [done|apply Hn2; rewrite E..].
    + apply list_elem_of_here.
    + apply list_elem_of_further, list_elem_of_here.
  - rewrite Hframe; [done|done|].
    unfold jp2_written, os_path_join.
    intros [-> | [-> | ->]]; simpl in *; done.
Qed.

(** X7.  The bytes of the TIFF derivatives.  Take a TIFF source outside the
    output folder on which every tool succeeds, an existing output folder and
    distinct derivative names.  A run of [generate_derivatives_from_tiff]
    without [save_xmp] returns, and afterwards the JPEG is the conversion of
    the source, the TIFF copy (with [include_tiff]) has the bytes of the
    source, the lossless JP2 is the conversion of the source, repaged when
    [repage_image] is set, and the lossy JP2 is the conversion of those bytes
    with the profile applied; the source has its bytes still. *)
Theorem tiff_run_bytes env self src out (include_tiff rp : bool) s
    (c cj c1 j1 c2 j2 : bytes) :
  let run :=
    generate_derivatives_from_tiff env self src out include_tiff false rp s in
  NoDup [jpg_filename self; tiff_filename self; lossless_jp2_filename self;
         lossy_jp2_filename self] →
  read (fs s) src = Some c → src.1 ≠ out →
  is_Some (fs s !! out) →
  is_Some (mkdtemp_name (tmpdir env) "image_ingest_" (tmp_names env) (fs s)) →
  to_jpg env c = inr cj →
  (if rp then repage env c else inr c) = inr c1 →
  to_jpeg2000 env true c1 = inr j1 → jp2_valid env j1 = true →
  tiff_colour_profile env (icc_profile self) c1 = inr c2 →
  colour_to_jpeg2000 env false c2 = inr j2 → jp2_valid env j2 = true →
  run.1 = inr (tiff_files self out include_tiff false) ∧
  read (fs run.2) (os_path_join out (jpg_filename self)) = Some cj ∧
  (include_tiff = true →
   read (fs run.2) (os_path_join out (tiff_filename self)) = Some c) ∧
  read (fs run.2) (os_path_join out (lossless_jp2_filename self)) = Some j1 ∧
  read (fs run.2) (os_path_join out (lossy_jp2_filename self)) = Some j2 ∧
  read (fs run.2) src = Some c.
Proof.
  intros run Hnd Hc Hso Hout [d Hd] Hj Hrp H1 V1 H2 H3 V2. subst run.
  rewrite tiff_with_scratch, (with_scratch_run _ _ _ _ Hd). simpl.
  destruct (mkdtemp_name_fresh _ _ _ _ _ Hd) as [Hfresh _].
  assert (d ≠ out) as Hdo.
  { intros ->. rewrite Hfresh in Hout. by destruct Hout. }
  assert (src.1 ≠ d) as Hsd by (eapply fresh_dir_elsewhere; eauto).
  set (s0 := emit _ _).
  destruct (tiff_body_bytes env self src out include_tiff rp d s0 c cj c1 j1
              c2 j2 Hnd)
    as (sb & -> & Hjpg & Htiff & Hl & Hy & Hsrc); try done.
  { simpl. by rewrite read_mkdir. }
  { simpl. by rewrite lookup_insert_ne. }
  { simpl. rewrite lookup_insert_eq. eauto. }
  simpl. rewrite !read_rmtree_other by done. done.
Qed.

(** The [try] block of the JPEG entry point with [save_xmp], when every tool
    succeeds: what each derivative holds. *)
Lemma jpg_body_bytes env self src out (strip : bool) d s
    (c packet data ct j1 c2 j2 : bytes) :
  let jpeg := os_path_join out (jpg_filename self) in
  let xmp := os_path_join out (xmp_filename self) in
  let lossless := os_path_join out (lossless_jp2_filename self) in
  let lossy := os_path_join out (lossy_jp2_filename self) in
  NoDup [jpg_filename self; xmp_filename self; lossless_jp2_filename self;
         lossy_jp2_filename self] →
  read (fs s) src = Some c → src.1 ≠ out → src.1 ≠ d → d ≠ out →
  is_Some (fs s !! out) → is_Some (fs s !! d) →
  xmp_can_open env c = true →
  xmp_packet env c = inr (Some packet) →
  xmp_serialize env packet = inr data →
  write_fault env xmp data = None →
  to_tiff env (if strip then ["-strip"] else []) c = inr ct →
  to_jpeg2000 env true ct = inr j1 → jp2_valid env j1 = true →
  tiff_colour_profile env (icc_profile self) ct = inr c2 →
  colour_to_jpeg2000 env false c2 = inr j2 → jp2_valid env j2 = true →
  ∃ sb,
    jpg_body env self src out strip true d s
    = (inr (jpg_files self out true), sb) ∧
    read (fs sb) jpeg = Some c ∧
    read (fs sb) xmp = Some (default [] (read (fs s) xmp) ++ data) ∧
    read (fs sb) lossless = Some j1 ∧
    read (fs sb) lossy = Some j2 ∧
    read (fs sb) src = Some c.
Proof.
  intros jpeg xmp lossless lossy Hnd Hc Hso Hsd Hdo Hout Hd Hopen Hpkt Hser
    Hfault Ht H1 V1 H2 H3 V2.
  unfold jpg_body, convert_to_tiff. fold jpeg xmp.
  set (scratch := os_path_join d (uuid4 env +:+ ".tif")).
  apply NoDup_cons in Hnd as [Hn1 Hnd]. apply NoDup_cons in Hnd as [Hn2 Hnd].
  apply NoDup_cons in Hnd as [Hn3 _].
  assert (jpeg ≠ xmp) as Hjx.
  { intros [= E]. apply Hn1. rewrite E. apply list_elem_of_here. }
  assert (lossless ≠ lossy) as Hll.
  { intros [= E]. apply Hn3. rewrite E. apply list_elem_of_here. }
  (* full.jpg *)
  destruct (write_is_Some (fs s) jpeg c Hout) as [f1 Hw1].
  erewrite bind_inr; cycle 1.
  { eapply shutil_copy_ok; [done| |done]. by intros ->. }
  assert (read f1 jpeg = Some c) as Hj1 by (by eapply read_write).
  assert (read f1 src = Some c) as Hc1 by (by erewrite read_write_other_dir).
  assert (read f1 xmp = read (fs s) xmp) as Hx1.
  { by erewrite read_write_ne. }
  (* xmp.xml *)
  set (s1 := set_fs f1 _).
  destruct (extract_xmp_ok env self jpeg xmp s1 c packet data)
    as (s2 & Hrun2 & Hst2 & Hx2 & _); [done..|by eapply write_keeps_dir|].
  simpl in Hx2. rewrite Hx1 in Hx2.
  erewrite bind_inr; cycle 1.
  { erewrite bind_inr by exact Hrun2. reflexivity. }
  assert (read (fs s2) jpeg = Some c) as Hj2.
  { rewrite (fs_frame _ _ _ Hst2); [done|]. by intros <-. }
  assert (read (fs s2) src = Some c) as Hc2.
  { rewrite (fs_frame _ _ _ Hst2); [done|]. by intros <-. }
  (* the scratch TIFF *)
  assert (is_Some (fs s2 !! d)) as Hd2.
  { apply Hst2. simpl. by eapply write_keeps_dir. }
  destruct (write_is_Some (fs s2) scratch ct Hd2) as [f3 Hw3].
  erewrite bind_inr by (by eapply run_tool_ok).
  (* the two JP2 files *)
  set (s3 := set_fs f3 _).
  destruct (jp2_exec env self scratch out s3 ct)
    as (s5 & Hrun5 & _ & Hst5 & Hok5);
    [by eapply read_write| |by intros [=]|].
  { simpl. eapply write_keeps_dir; [done|]. apply Hst2. simpl.
    by eapply write_keeps_dir. }
  rewrite (jp2_outcome_ok env self out ct j1 c2 j2) in Hrun5, Hok5 by done.
  erewrite bind_inr by exact Hrun5.
  eexists. split; [done|]. simpl.
  destruct (Hok5 _ eq_refl)
    as (j1' & c2' & j2' & E1 & E2 & E3 & Hy & Hl & _).
  assert (j1' = j1) as -> by congruence.
  assert (c2' = c2) as -> by congruence.
  assert (j2' = j2) as -> by congruence.
  assert (∀ p, p.1 ≠ d → ¬ jp2_written self out scratch p →
            read (fs s5) p = read (fs s2) p) as Hframe.
  { intros p Hp Hnw. rewrite (fs_frame _ _ _ Hst5) by done. simpl.
    by erewrite read_write_other_dir. }
  split; [|split; [|split; [by apply Hl|split; [done|]]]].
  - rewrite Hframe; [done|done|].
    unfold jp2_written, jpeg, os_path_join.
    intros [[= ? _]|[[= E]|[= E]]]; [done|apply Hn1; rewrite E..].
    + apply list_elem_of_further, list_elem_of_here.
    + do 2 apply list_elem_of_further. apply list_elem_of_here.
  - rewrite Hframe; [done|done|].
    unfold jp2_written, xmp, os_path_join.
    intros [[= ? _]|[[= E]|[= E]]]; [done|apply Hn2; rewrite E..].
    + apply list_elem_of_here.
    + apply list_elem_of_further, list_elem_of_here.
  - rewrite Hframe; [done|done|].
    unfold jp2_written, os_path_join.
    intros [-> | [-> | ->]]; simpl in *; done.
Qed.

(** X6.  The bytes of the JPEG derivatives.  Take a JPEG source outside the
    output folder on which every tool succeeds, an existing output folder and
    distinct derivative names.  A run of [generate_derivatives_from_jpg] with
    [save_xmp] returns, and afterwards the JPEG derivative has the bytes of
    the source, the sidecar holds what it held before the run (nothing when
    it did not exist) followed by the serialized packet of the source, the
    lossless JP2 is the conversion of the TIFF made from the source, and the
    lossy JP2 is the conversion of that TIFF with the profile applied; the
    source has its bytes still. *)
Theorem jpg_run_bytes env self src out (strip : bool) s
    (c packet data ct j1 c2 j2 : bytes) :
  let run := generate_derivatives_from_jpg env self src out strip true s in
  let xmp := os_path_join out (xmp_filename self) in
  NoDup [jpg_filename self; xmp_filename self; lossless_jp2_filename self;
         lossy_jp2_filename self] →
  read (fs s) src = Some c → src.1 ≠ out →
  is_Some (fs s !! out) →
  is_Some (mkdtemp_name (tmpdir env) "image_ingest_" (tmp_names env) (fs s)) →
  xmp_can_open env c = true →
  xmp_packet env c = inr (Some packet) →
  xmp_serialize env packet = inr data →
  write_fault env xmp data = None →
  to_tiff env (if strip then ["-strip"] else []) c = inr ct →
  to_jpeg2000 env true ct = inr j1 → jp2_valid env j1 = true →
  tiff_colour_profile env (icc_profile self) ct = inr c2 →
  colour_to_jpeg2000 env false c2 = inr j2 → jp2_valid env j2 = true →
  run.1 = inr (jpg_files self out true) ∧
  read (fs run.2) (os_path_join out (jpg_filename self)) = Some c ∧
  read (fs run.2) xmp = Some (default [] (read (fs s) xmp) ++ data) ∧
  read (fs run.2) (os_path_join out (lossless_jp2_filename self)) = Some j1 ∧
  read (fs run.2) (os_path_join out (lossy_jp2_filename self)) = Some j2 ∧
  read (fs run.2) src = Some c.
Proof.
  intros run xmp Hnd Hc Hso Hout [d Hd] Hopen Hpkt Hser Hfault Ht
    H1 V1 H2 H3 V2.
  subst run.
  rewrite jpg_with_scratch, (with_scratch_run _ _ _ _ Hd). simpl.
  destruct (mkdtemp_name_fresh _ _ _ _ _ Hd) as [Hfresh _].
  assert (d ≠ out) as Hdo.
  { intros ->. rewrite Hfresh in Hout. by destruct Hout. }
  assert (src.1 ≠ d) as Hsd by (eapply fresh_dir_elsewhere; eauto).
  set (s0 := emit _ _).
  destruct (jpg_body_bytes env self src out strip d s0 c packet data ct j1
              c2 j2 Hnd)
    as (sb & -> & Hjpg & Hxmp & Hl & Hy & Hsrc); try done.
  { simpl. by rewrite read_mkdir. }
  { simpl. by rewrite lookup_insert_ne. }
  { simpl. rewrite lookup_insert_eq. eauto. }
  simpl. rewrite !read_rmtree_other by done.
  simpl in Hxmp. rewrite read_mkdir in Hxmp by done. done.
Qed.

(** ** [extract_xmp] at its edges *)

(** X10.  An image libxmp cannot read.  When the image is missing, cannot be
    opened, or [get_xmp] raises, [extract_xmp] raises before the sidecar is
    opened: the file system is as before (no sidecar is created) and no
    handle stays open. *)
Theorem extract_xmp_unreadable_image env self img xmp s :
  let run := extract_xmp env self img xmp s in
  xmp_unreadable env (read (fs s) img) →
  (∃ e, run.1 = inl e) ∧ fs run.2 = fs s ∧ handles run.2 = handles s.
Proof.
  intros run Hun. subst run.
  unfold extract_xmp, XMPFiles, get_xmp, close_handle, modify, try_finally,
    bind.
  simpl. unfold xmp_unreadable in Hun.
  destruct (read (fs s) img) as [c|]; [|by eauto].
  destruct (xmp_can_open env c) eqn:Hopen.
  - destruct Hun as [[=]|[e He]]. rewrite He. simpl.
    rewrite release_head. eauto.
  - simpl. eauto.
Qed.

(** X9.  An image without XMP.  When the image opens but carries no packet
    ([get_xmp] returns [None]), [extract_xmp] raises [AttributeError], but
    only after the sidecar was opened for appending: a sidecar that did not
    exist is left behind empty and one that existed keeps its bytes; no
    other file changes and no handle stays open. *)
Theorem extract_xmp_no_packet env self img xmp s (image : bytes) :
  let run := extract_xmp env self img xmp s in
  read (fs s) img = Some image →
  xmp_can_open env image = true →
  xmp_packet env image = inr None →
  is_Some (fs s !! xmp.1) →
  run.1 = inl AttributeError ∧
  read (fs run.2) xmp = Some (default [] (read (fs s) xmp)) ∧
  (∀ q, q ≠ xmp → read (fs run.2) q = read (fs s) q) ∧
  handles run.2 = handles s.
Proof.
  intros run Himg Hopen Hpkt [m Hdir]. subst run.
  destruct (extract_xmp env self img xmp s) as [r s'] eqn:Hrun.
  destruct (extract_xmp_inv _ _ _ _ _ _ _ Hrun) as [[[_ Hfr _] Hh _] _].
  simpl.
  assert (r = inl AttributeError ∧
          read (fs s') xmp = Some (default [] (read (fs s) xmp)))
    as [-> ->].
  { revert Hrun. unfold extract_xmp, XMPFiles, get_xmp, with_open_append,
      io_open_append, serialize_to_unicode, close_handle, raise,
      log_debug, modify, try_finally, bind.
    simpl. rewrite Himg, Hopen, Hpkt. simpl. rewrite Hdir. simpl.
    intros [= <- <-]. simpl. split; [done|].
    unfold read. rewrite lookup_insert_eq, Hdir. simpl.
    destruct (m !! xmp.2) eqn:Hold; [done|]. by rewrite lookup_insert_eq. }
  do 2 (split; [done|]). split; [|done].
  intros q Hq. apply Hfr. by intros <-.
Qed.

(** X8.  Writing the sidecar.  When libxmp delivers and serializes the packet of
    the image, the folder of the sidecar exists and the write does not fail,
    [extract_xmp] returns; the sidecar then holds what it held before
    (nothing when it did not exist) followed by the serialized packet, it is
    listed in its folder, no other file changes and no handle stays open. *)
Theorem extract_xmp_writes_sidecar env self img xmp s
    (image packet data : bytes) :
  let run := extract_xmp env self img xmp s in
  read (fs s) img = Some image →
  xmp_can_open env image = true →
  xmp_packet env image = inr (Some packet) →
  xmp_serialize env packet = inr data →
  write_fault env xmp data = None →
  is_Some (fs s !! xmp.1) →
  run.1 = inr tt ∧
  read (fs run.2) xmp = Some (default [] (read (fs s) xmp) ++ data) ∧
  listdir (fs run.2) xmp.1 = {[xmp.2]} ∪ listdir (fs s) xmp.1 ∧
  (∀ q, q ≠ xmp → read (fs run.2) q = read (fs s) q) ∧
  handles run.2 = handles s.
Proof.
  intros run Himg Hopen Hpkt Hser Hfault Hdir. subst run.
  destruct (extract_xmp_ok env self img xmp s image packet data)
    as (s' & Hrun & [_ Hfr _] & Hread & Hls); try done.
  destruct (extract_xmp_inv _ _ _ _ _ _ _ Hrun) as [[_ Hh _] _].
  rewrite Hrun. simpl. do 3 (split; [done|]). split; [|done].
  intros q Hq. apply Hfr. by intros <-.
Qed.

(** ** Runs that fail *)

Lemma rmtree_fs_fresh env d (f : FS) :
  f !! d = None → rmtree_fs env d (<[d := ∅]> f) = f.
Proof.
  intros Hd. unfold rmtree_fs, leftover.
  rewrite lookup_insert_eq, map_filter_empty, decide_True by done.
  by rewrite delete_insert_eq, delete_id.
Qed.

(** X11.  A source that cannot be copied.  When the source JPEG is missing, or is
    already the JPEG path of the output folder, the run of
    [generate_derivatives_from_jpg] raises what [shutil.copy] raises
    ([IOError], respectively its same-file error), having made the scratch
    folder, tried the copy and removed the scratch folder; the file system
    is as before the run. *)
Theorem jpg_run_copy_fails env self src out (strip save_xmp : bool) s d :
  let jpeg := os_path_join out (jpg_filename self) in
  let run := generate_derivatives_from_jpg env self src out strip save_xmp s in
  mkdtemp_name (tmpdir env) "image_ingest_" (tmp_names env) (fs s) = Some d →
  read (fs s) src = None ∨ src = jpeg →
  run.1 = inl (copy_error (fs s) src jpeg) ∧
  fs run.2 = fs s ∧
  trace run.2 = trace s ++ [EMkdtemp d; ECopy src jpeg; ERmtree d].
Proof.
  intros jpeg run Hd Hfail. subst run.
  rewrite jpg_with_scratch, (with_scratch_run _ _ _ _ Hd). simpl.
  destruct (mkdtemp_name_fresh _ _ _ _ _ Hd) as [Hfresh _].
  set (s0 := emit _ _).
  assert (jpg_body env self src out strip save_xmp d s0
          = (inl (copy_error (fs s) src jpeg), emit (ECopy src jpeg) s0))
    as ->.
  { unfold jpg_body. fold jpeg. apply bind_inl.
    unfold shutil_copy, copy_error. simpl. rewrite read_mkdir by done.
    destruct (read (fs s) src) as [c|] eqn:Hc; [|done].
    destruct Hfail as [[=] | ->]. by rewrite !decide_True. }
  simpl. split; [done|]. split; [by apply rmtree_fs_fresh|].
  by rewrite <- !app_assoc.
Qed.

(** X12.  An invalid lossless JP2 stays behind.  When the lossless conversion
    succeeds and its output is not a structurally valid JP2,
    [generate_jp2_derivatives_from_tiff] raises [ValidationError] and leaves
    the invalid file at the lossless path; every other file, the scratch
    TIFF included, is as before. *)
Theorem invalid_lossless_left_behind env self scratch out s (c j1 : bytes) :
  let lossless := os_path_join out (lossless_jp2_filename self) in
  let run := generate_jp2_derivatives_from_tiff env self scratch out s in
  read (fs s) scratch = Some c → is_Some (fs s !! out) →
  to_jpeg2000 env true c = inr j1 → jp2_valid env j1 = false →
  run.1 = inl ValidationError ∧
  read (fs run.2) lossless = Some j1 ∧
  ∀ p, p ≠ lossless → read (fs run.2) p = read (fs s) p.
Proof.
  intros lossless run Hc Hout H1 V1. subst run.
  unfold generate_jp2_derivatives_from_tiff, convert_to_jpeg2000.
  fold lossless.
  destruct (write_is_Some (fs s) lossless j1 Hout) as [f1 Hw1].
  erewrite bind_inr by (by eapply run_tool_ok).
  erewrite bind_inl; cycle 1.
  { rewrite (validate_jp2_read _ _ _ j1); [by rewrite V1|].
    simpl. by eapply read_write. }
  simpl. split; [done|]. split; [by eapply read_write|].
  intros p Hp. by eapply read_write_ne.
Qed.

(** ** The further properties on concrete runs *)

Lemma entry_points_keep_other_files_witness :
  read (fs (generate_derivatives_from_tiff env0 default_transform master_tif
              "out" true true true (state0 fs0)).2) master_jpg
  = read (fs (state0 fs0)) master_jpg.
Proof.
  eapply (entry_points_keep_other_files env0 default_transform master_tif
            "out" false true true true (state0 fs0) master_jpg).
  - exists (b "JPG:pixels"). by vm_compute.
  - apply (bool_decide_unpack _). by vm_compute.
Defined.

Lemma jpg_run_returns_witness :
  Forall (λ p, p.1 = "out" ∧
               is_Some (read (fs (generate_derivatives_from_jpg env0
                                    default_transform master_jpg "out" true
                                    true (state0 fs0)).2) p))
    [("out", "full.jpg"); ("out", "xmp.xml"); ("out", "full_lossless.jp2");
     ("out", "full_lossy.jp2")].
Proof.
  eapply (jpg_run_returns env0 default_transform master_jpg "out" true true
            (state0 fs0)).
  - exists ∅. by vm_compute.
  - by vm_compute.
Defined.

Lemma tiff_run_returns_witness :
  Forall (λ p, p.1 = "out" ∧
               is_Some (read (fs (generate_derivatives_from_tiff env0
                                    default_transform master_tif "out" true
                                    true false (state0 fs0)).2) p))
    [("out", "full.jpg"); ("out", "xmp.xml"); ("out", "full.tiff");
     ("out", "full_lossless.jp2"); ("out", "full_lossy.jp2")].
Proof.
  eapply (tiff_run_returns env0 default_transform master_tif "out" true true
            false (state0 fs0)).
  - exists ∅. by vm_compute.
  - by vm_compute.
Defined.

Lemma tiff_run_bytes_witness :
  read (fs (generate_derivatives_from_tiff env0 default_transform master_tif
              "out" true false true (state0 fs0)).2)
    ("out", "full_lossy.jp2") = Some (b "JP2:pixels+sRGB~").
Proof.
  eapply (tiff_run_bytes env0 default_transform master_tif "out" true true
            (state0 fs0) (b "TIFF:pixels") (b "JPG:pixels") (b "TIFF:pixels")
            (b "JP2:pixels") (b "TIFF:pixels+sRGB") (b "JP2:pixels+sRGB~")).
  all: first [ by vm_compute
             | apply (bool_decide_unpack _); by vm_compute
             | exists ∅; by vm_compute
             | exists tmp0; by vm_compute ].
Defined.

Lemma jpg_run_bytes_witness :
  read (fs (generate_derivatives_from_jpg env0 default_transform master_jpg
              "out" false true (state0 fs_sidecar)).2) ("out", "xmp.xml")
  = Some (default [] (read (fs (state0 fs_sidecar)) ("out", "xmp.xml"))
          ++ b "<x:xmpmeta/>").
Proof.
  eapply (jpg_run_bytes env0 default_transform master_jpg "out" false
            (state0 fs_sidecar) (b "JPG:pixels") (b "<x:xmpmeta/>")
            (b "<x:xmpmeta/>") (b "TIFF:pixels") (b "JP2:pixels")
            (b "TIFF:pixels+sRGB") (b "JP2:pixels+sRGB~")).
  all: first [ by vm_compute
             | apply (bool_decide_unpack _); by vm_compute
             | eexists; by vm_compute ].
Defined.

Lemma extract_xmp_unreadable_image_witness :
  fs (extract_xmp env_no_xmp default_transform master_jpg ("out", "xmp.xml")
        (state0 fs0)).2 = fs (state0 fs0).
Proof.
  eapply (extract_xmp_unreadable_image env_no_xmp default_transform
            master_jpg ("out", "xmp.xml") (state0 fs0)).
  right. by exists XMPError.
Defined.

Lemma extract_xmp_no_packet_witness :
  (extract_xmp env_plain default_transform master_jpg ("out", "xmp.xml")
     (state0 fs0)).1 = inl AttributeError ∧
  read (fs (extract_xmp env_plain default_transform master_jpg
              ("out", "xmp.xml") (state0 fs0)).2) ("out", "xmp.xml")
  = Some (default [] (read (fs (state0 fs0)) ("out", "xmp.xml"))).
Proof.
  split;
    eapply (extract_xmp_no_packet env_plain default_transform master_jpg
              ("out", "xmp.xml") (state0 fs0) (b "JPG:pixels")).
  all: first [by vm_compute | exists ∅; by vm_compute].
Defined.

Lemma extract_xmp_writes_sidecar_witness :
  (extract_xmp env0 default_transform master_jpg ("out", "xmp.xml")
     (state0 fs0)).1 = inr tt.
Proof.
  eapply (extract_xmp_writes_sidecar env0 default_transform master_jpg
            ("out", "xmp.xml") (state0 fs0) (b "JPG:pixels")
            (b "<x:xmpmeta/>") (b "<x:xmpmeta/>")).
  all: first [by vm_compute | exists ∅; by vm_compute].
Defined.

Lemma jpg_run_copy_fails_witness :
  (generate_derivatives_from_jpg env0 default_transform ("in", "nope.jpg")
     "out" false true (state0 fs0)).1
  = inl (copy_error (fs (state0 fs0)) ("in", "nope.jpg") ("out", "full.jpg")) ∧
  fs (generate_derivatives_from_jpg env0 default_transform ("in", "nope.jpg")
        "out" false true (state0 fs0)).2 = fs (state0 fs0).
Proof.
  split;
    eapply (jpg_run_copy_fails env0 default_transform ("in", "nope.jpg")
              "out" false true (state0 fs0) tmp0).
  all: first [by vm_compute | left; by vm_compute].
Defined.

Lemma invalid_lossless_left_behind_witness :
  read (fs (generate_jp2_derivatives_from_tiff env_invalid default_transform
              scratch0 "out" (state0 fs_scratch)).2)
    ("out", "full_lossless.jp2") = Some (b "JP2:pixels").
Proof.
  eapply (invalid_lossless_left_behind env_invalid default_transform scratch0
            "out" (state0 fs_scratch) (b "TIFF:pixels") (b "JP2:pixels")).
  all: first [by vm_compute | exists ∅; by vm_compute].
Defined.
